(** * Interface documentation generator (readme-factory.ts, name-factory.ts)

    A shallow embedding of the Markdown documentation generator and the
    properties of its type walk, ordering, anchors and rendering. *)

From Stdlib Require Import String Ascii List ZArith Lia Bool Arith.
From Stdlib Require Import Sorting.Sorted Sorting.Permutation.
Import ListNotations.
Open Scope string_scope.
Open Scope list_scope.

Infix "+++" := String.append (right associativity, at level 60).

(** ** JavaScript string and array primitives *)

Module Js.

Definition isUpper (c : ascii) : bool :=
  let n := nat_of_ascii c in (65 <=? n)%nat && (n <=? 90)%nat.

Definition isLower (c : ascii) : bool :=
  let n := nat_of_ascii c in (97 <=? n)%nat && (n <=? 122)%nat.

Definition lowerChar (c : ascii) : ascii :=
  if isUpper c then ascii_of_nat (nat_of_ascii c + 32) else c.

Definition upperChar (c : ascii) : ascii :=
  if isLower c then ascii_of_nat (nat_of_ascii c - 32) else c.

Fixpoint mapChars (f : ascii -> ascii) (s : string) : string :=
  match s with
  | EmptyString => EmptyString
  | String c s' => String (f c) (mapChars f s')
  end.

(** [String.prototype.toLocaleLowerCase] on strings of ASCII characters,
    in a locale without special casing of ASCII letters: the letters A-Z
    are folded and nothing else changes.  Outside ASCII the function of the
    host folds other cased letters too and may change the length of the
    string; this definition says nothing about such strings (it leaves
    their bytes as they are), and properties of [anchor] that go beyond
    concrete ASCII names are stated for ASCII names only. *)
Definition toLocaleLowerCase (s : string) : string := mapChars lowerChar s.

(** [String.prototype.split] with a non-empty separator.  [skip] counts the
    characters of a matched separator that are still to be dropped and
    [cur] is the piece being accumulated. *)
Fixpoint splitGo (sep s : string) (skip : nat) (cur : string) : list string :=
  match s with
  | EmptyString => [cur]
  | String c s' =>
      match skip with
      | S k => splitGo sep s' k cur
      | O =>
          if String.prefix sep s
          then cur :: splitGo sep s' (String.length sep - 1) ""
          else splitGo sep s' 0 (String.append cur (String c ""))
      end
  end.

Definition split (sep s : string) : list string := splitGo sep s 0 "".

(** [Array.prototype.join]. *)
Definition join (sep : string) (l : list string) : string := String.concat sep l.

(** [String.prototype.substring] with a single argument. *)
Definition substringFrom (n : nat) (s : string) : string :=
  String.substring n (String.length s - n) s.

(** [Array.prototype.sort] with a comparator.  The sort is stable: an
    element moves in front of another only when the comparator is positive
    for the pair in their current order.  For a comparator that is a total
    preorder every stable sort returns this list. *)
Section Sort.
Context {A : Type} (cmp : A -> A -> Z).

Fixpoint insert (x : A) (l : list A) : list A :=
  match l with
  | [] => [x]
  | y :: l' => if (cmp x y <=? 0)%Z then x :: y :: l' else y :: insert x l'
  end.

Fixpoint sort (l : list A) : list A :=
  match l with
  | [] => []
  | x :: l' => insert x (sort l')
  end.
End Sort.

(** A [Set] as the list of its elements in insertion order; [add] of an
element already present changes nothing.  The sets of the builder hold
objects that [getTypeByName] and [getEnumByName] returned; the registry
returns one object per name, so on them the identity that a [Set] compares
by is the equality [eq_dec] decides. *)
Section SetModel.
Context {A : Type} (eq_dec : forall a b : A, {a = b} + {a <> b}).

Definition setAdd (found : list A) (x : A) : list A :=
  if in_dec eq_dec x found then found else found ++ [x].

Definition setAddAll (found : list A) (xs : list A) : list A :=
  fold_left setAdd xs found.
End SetModel.

End Js.

(** ** The schema model (package basketry) *)

(** A description is a single string literal or an array of them. *)
Inductive Description : Type :=
| Single (value : string)
| Lines (values : list string).

(** What a parameter, a property and a return type share: the referenced type
    name and the flags [isPrimitive] and [isArray]. *)
Record TypeRef : Type := mkTypeRef {
  typeName : string;
  isPrimitive : bool;
  isArray : bool
}.

Record Param : Type := mkParam {
  param_name : string;
  param_type : TypeRef;
  param_required : bool;
  param_description : option Description
}.

Definition Property : Type := Param.
Definition ReturnType : Type := TypeRef.

Record Type_ : Type := mkType {
  type_name : string;
  type_properties : list Property;
  type_description : option Description
}.

Record Enum : Type := mkEnum {
  enum_name : string;
  enum_values : list string
}.

Record Method : Type := mkMethod {
  method_name : string;
  method_parameters : list Param;
  method_returnType : option ReturnType;
  method_description : option Description
}.

Record Interface : Type := mkInterface {
  interface_name : string;
  interface_methods : list Method
}.

Record Service : Type := mkService {
  service_title : string;
  service_interfaces : list Interface;
  service_types : list Type_;
  service_enums : list Enum
}.

Record File : Type := mkFile {
  path : list string;
  contents : string
}.

Definition Description_eq_dec (a b : Description) : {a = b} + {a <> b}.
Proof. repeat decide equality. Defined.

Definition TypeRef_eq_dec (a b : TypeRef) : {a = b} + {a <> b}.
Proof. repeat decide equality. Defined.

Definition Param_eq_dec (a b : Param) : {a = b} + {a <> b}.
Proof. repeat decide equality. Defined.

Definition Type_eq_dec (a b : Type_) : {a = b} + {a <> b}.
Proof. repeat decide equality. Defined.

Definition Enum_eq_dec (a b : Enum) : {a = b} + {a <> b}.
Proof. repeat decide equality. Defined.

(** Modelled from the spec: basketry's [getTypeByName] and [getEnumByName]
    are imported, not defined in this repository.  They look a name up in
    the registry of the service by exact match and answer "not found"
    (here [None]) for a name that is absent. *)
Definition getTypeByName (service : Service) (name : string) : option Type_ :=
  find (fun t => String.eqb (type_name t) name) (service_types service).

Definition getEnumByName (service : Service) (name : string) : option Enum :=
  find (fun e => String.eqb (enum_name e) name) (service_enums service).

(** Modelled from the spec: basketry's [isRequired] is imported; the spec
    gives parameters and properties a flag [isRequired]. *)
Definition isRequired (p : Param) : bool := param_required p.

(** Modelled from the spec: [from] of @basketry/sorbet/lib/utils joins the
    yielded lines with newlines. *)
Definition newline : string := String (ascii_of_nat 10) "".
Definition from (lines : list string) : string := Js.join newline lines.

(** ** Imported collaborators

    The naming functions of package case and of @basketry/sorbet, and the
    string comparison of the host, are not part of this repository.  The
    generator is embedded over any implementation of them. *)
Class Host : Type := {
  Options : Type;
  (* case *)
  pascal : string -> string;
  snake : string -> string;
  title : string -> string;
  (* @basketry/sorbet/lib/name-factory *)
  buildInterfaceName : Interface -> string;
  buildInterfaceNamespace : Service -> option Options -> string;
  buildMethodName : Method -> string;
  buildParameterName : Param -> string;
  buildPropertyName : Property -> string;
  buildTypeNamespace : Service -> option Options -> string;
  (* buildTypeName ({ type, service, options, skipArrayify }) *)
  sorbetTypeName : TypeRef -> Service -> option Options -> bool -> string;
  (* String.prototype.localeCompare, in the default locale of the host *)
  localeCompare : string -> string -> Z
}.

(** ** The generator (readme-factory.ts) *)

(** A computation that may fail to return: [None] stands for a walk that
    was cut off because its recursion went deeper than the fuel allows. *)
Definition bind {A B : Type} (m : option A) (k : A -> option B) : option B :=
  match m with
  | Some a => k a
  | None => None
  end.

Notation "x <- m ;; k" := (bind m (fun x => k))
  (at level 61, m at next level, right associativity).

(** [sortParameters]: required parameters (key 0) before optional ones
    (key 1), by the stable sort. *)
Definition sortParameters (parameters : list Param) : list Param :=
  Js.sort (fun a b => ((if isRequired a then 0 else 1) - (if isRequired b then 0 else 1))%Z)
          parameters.

(** [anchor]. *)
Definition anchor (name : string) : string :=
  "#" +++ Js.join "-" (Js.split " " (Js.toLocaleLowerCase name)).

(** The loop over the properties in [traverseType]: for each non-primitive
    property whose type is found, what the recursive traversal [rec] of that
    type yields; a primitive property or a name that is not found yields
    nothing. *)
Fixpoint traverseProperties (rec : Type_ -> option (list Type_))
    (service : Service) (props : list Property) : option (list Type_) :=
  match props with
  | [] => Some []
  | prop :: props' =>
      here <- (if isPrimitive (param_type prop) then Some []
               else match getTypeByName service (typeName (param_type prop)) with
                    | Some subtype => rec subtype
                    | None => Some []
                    end) ;;
      rest <- traverseProperties rec service props' ;;
      Some (here ++ rest)
  end.

(** [traverseType]: a generator that yields the type and then, property by
    property, everything the traversal of the property's type yields.  The
    list is what the generator yields, in order; [fuel] bounds the depth of
    the nested generators, and [None] is a traversal that needs more. *)
Fixpoint traverseType (fuel : nat) (service : Service) (type : Type_)
  : option (list Type_) :=
  match fuel with
  | O => None
  | S fuel' =>
      sub <- traverseProperties (traverseType fuel' service) service
               (type_properties type) ;;
      Some (type :: sub)
  end.

(** [Array.prototype.map] over a function that may fail to return. *)
Fixpoint mapM {A B : Type} (f : A -> option B) (l : list A) : option (list B) :=
  match l with
  | [] => Some []
  | x :: l' => y <- f x ;; ys <- mapM f l' ;; Some (y :: ys)
  end.

(** The lines guarded by [if (collection.length)]. *)
Definition whenNonEmpty {A : Type} (collection : list A) (lines : list string)
  : list string :=
  match collection with
  | [] => []
  | _ :: _ => lines
  end.

(** [buildInterfaceDocsFilepath] (name-factory.ts). *)
Definition buildInterfaceDocsFilepath `{Host} (int : Interface)
    (service : Service) (options : option Options) : list string :=
  let namespace := buildInterfaceNamespace service options in
  map snake (Js.split "::" namespace)
  ++ [snake (buildInterfaceName int) +++ ".md"].

Section Builder.
Context {host : Host}.

(** What basketry's [warning] yields for the service, this package's
    package.json and the options: the banner of the generated file. *)
Variable banner : Service -> option Options -> list string.

(** The fields of the [Builder] class. *)
Variable service : Service.
Variable options : option Options.

Definition warning : list string :=
  "<!--" :: banner service options ++ ["--->"].

Definition methods (int : Interface) : list Method :=
  Js.sort (fun a b => localeCompare (method_name a) (method_name b))
          (interface_methods int).

(** The body shared by the parameter loop and the return type in [types]:
    a primitive reference and a name that is not found add nothing;
    otherwise everything [traverseType] yields is added to the set. *)
Definition typesOfRef (fuel : nat) (ref : TypeRef) (foundTypes : list Type_)
  : option (list Type_) :=
  if isPrimitive ref then Some foundTypes
  else match getTypeByName service (typeName ref) with
       | None => Some foundTypes
       | Some type =>
           yielded <- traverseType fuel service type ;;
           Some (Js.setAddAll Type_eq_dec foundTypes yielded)
       end.

Fixpoint typesOfParameters (fuel : nat) (params : list Param)
    (foundTypes : list Type_) : option (list Type_) :=
  match params with
  | [] => Some foundTypes
  | param :: params' =>
      found <- typesOfRef fuel (param_type param) foundTypes ;;
      typesOfParameters fuel params' found
  end.

Definition typesOfMethod (fuel : nat) (method : Method)
    (foundTypes : list Type_) : option (list Type_) :=
  found <- typesOfParameters fuel (method_parameters method) foundTypes ;;
  match method_returnType method with
  | Some returnType => typesOfRef fuel returnType found
  | None => Some found
  end.

Fixpoint typesOfMethods (fuel : nat) (ms : list Method)
    (foundTypes : list Type_) : option (list Type_) :=
  match ms with
  | [] => Some foundTypes
  | method :: ms' =>
      found <- typesOfMethod fuel method foundTypes ;;
      typesOfMethods fuel ms' found
  end.

Definition types (fuel : nat) (int : Interface) : option (list Type_) :=
  foundTypes <- typesOfMethods fuel (interface_methods int) [] ;;
  Some (Js.sort (fun a b => localeCompare (type_name a) (type_name b))
                foundTypes).

Definition enumsOfRef (ref : TypeRef) (foundEnums : list Enum) : list Enum :=
  if isPrimitive ref then foundEnums
  else match getEnumByName service (typeName ref) with
       | Some e => Js.setAdd Enum_eq_dec foundEnums e
       | None => foundEnums
       end.

Definition enumsOfParameters (params : list Param) (foundEnums : list Enum)
  : list Enum :=
  fold_left (fun found param => enumsOfRef (param_type param) found)
            params foundEnums.

Definition enumsOfMethod (method : Method) (foundEnums : list Enum)
  : list Enum :=
  let found := enumsOfParameters (method_parameters method) foundEnums in
  match method_returnType method with
  | Some returnType => enumsOfRef returnType found
  | None => found
  end.

Definition enums (fuel : nat) (int : Interface) : option (list Enum) :=
  let found :=
    fold_left (fun found method => enumsOfMethod method found)
              (interface_methods int) [] in
  reachable <- types fuel int ;;
  let found' :=
    fold_left (fun found type => enumsOfParameters (type_properties type) found)
              reachable found in
  Some (Js.sort (fun a b => localeCompare (enum_name a) (enum_name b)) found').

(** The private [buildTypeName]: the name built by the sorbet name factory,
    with the type namespace and its [::] cut off for a named type. *)
Definition buildTypeName (type : TypeRef) (skipArrayify : bool) : string :=
  let fullyQualifiedName := sorbetTypeName type service options skipArrayify in
  if isPrimitive type then fullyQualifiedName
  else Js.substringFrom
         (String.length (buildTypeNamespace service options) + 2)
         fullyQualifiedName.

Definition buildLinkedTypeName (param : TypeRef) : string :=
  let typeName := buildTypeName param true in
  if isPrimitive param
  then typeName +++ (if isArray param then "[]" else "")
  else "[" +++ typeName +++ "](" +++ anchor typeName +++ ")"
       +++ (if isArray param then "[]" else "").

Definition buildParameterDescription (param : Param) : string :=
  match param_description param with
  | None => ""
  | Some (Lines lines) => " - " +++ Js.join " " lines
  | Some (Single value) => " - " +++ value
  end.

Definition buildParameter (param : Param) : string :=
  "- `" +++ buildParameterName param +++ "` "
  +++ buildLinkedTypeName (param_type param)
  +++ (if isRequired param then "" else " (optional)")
  +++ buildParameterDescription param.

Definition buildProperty (prop : Property) : string :=
  "- `" +++ buildPropertyName prop +++ "` "
  +++ buildLinkedTypeName (param_type prop)
  +++ (if isRequired prop then "" else " (optional)")
  +++ buildParameterDescription prop.

Definition buildMethodDefinition (method : Method) : string :=
  let parameters :=
    match method_parameters method with
    | [] => ""
    | _ :: _ =>
        "("
        +++ Js.join ", "
             (map (fun param =>
                     buildParameterName param +++ ":"
                     +++ (if isRequired param then "" else " nil"))
                  (sortParameters (method_parameters method)))
        +++ ")"
    end in
  buildMethodName method +++ parameters.

(** The lines a description yields: a blank line and the text, once for a
    single description and once per line for an array. *)
Definition descriptionLines (description : option Description) : list string :=
  match description with
  | Some (Lines lines) => flat_map (fun line => [""; line]) lines
  | Some (Single value) => [""; value]
  | None => []
  end.

Definition buildMethodDocs (method : Method) : list string :=
  (["### " +++ buildMethodName method;
    "";
    "`" +++ buildMethodDefinition method +++ "`"]
   ++ whenNonEmpty (method_parameters method)
        ("" :: map buildParameter (method_parameters method))
   ++ match method_returnType method with
      | Some returnType =>
          [""; "Returns: " +++ buildLinkedTypeName returnType
               +++ (if isArray returnType then "[]" else "")]
      | None => []
      end
   ++ descriptionLines (method_description method)
   ++ [""]).

Definition buildTypeDocs (type : Type_) : list string :=
  (["### " +++ pascal (type_name type);
    "";
    "`" +++ buildTypeNamespace service options +++ "::"
        +++ pascal (type_name type) +++ "`"]
   ++ descriptionLines (type_description type)
   ++ whenNonEmpty (type_properties type)
        ("" :: map buildProperty (type_properties type))
   ++ [""]).

Definition buildEnumDocs (e : Enum) : list string :=
  (["### " +++ pascal (enum_name e);
    "";
    "`" +++ buildTypeNamespace service options +++ "::"
        +++ pascal (enum_name e) +++ "`"]
   ++ whenNonEmpty (enum_values e)
        ("" :: map (fun value => "- `" +++ value +++ "`") (enum_values e))
   ++ [""]).

Definition buildToc (fuel : nat) (int : Interface) : option (list string) :=
  let methods := methods int in
  types <- types fuel int ;;
  enums <- enums fuel int ;;
  Some (whenNonEmpty methods
          ("- Methods"
           :: map (fun method =>
                     "  - [" +++ buildMethodName method +++ "]("
                     +++ anchor (buildMethodName method) +++ ")")
                  methods)
        ++ whenNonEmpty types
             ("- Types"
              :: map (fun type =>
                        "  - [" +++ pascal (type_name type) +++ "]("
                        +++ anchor (type_name type) +++ ")")
                     types)
        ++ whenNonEmpty enums
             ("- Enums"
              :: map (fun e =>
                        "  - [" +++ pascal (enum_name e) +++ "]("
                        +++ anchor (enum_name e) +++ ")")
                     enums)).

Definition buildInterfaceDocs (fuel : nat) (int : Interface)
  : option (list string) :=
  let methods := methods int in
  types <- types fuel int ;;
  enums <- enums fuel int ;;
  toc <- buildToc fuel int ;;
  Some (warning
        ++ [""; "# " +++ title (buildInterfaceName int); ""]
        ++ toc
        ++ [""]
        ++ whenNonEmpty methods
             ("## Methods" :: "" :: flat_map buildMethodDocs methods)
        ++ whenNonEmpty types
             ("## Types" :: "" :: flat_map buildTypeDocs types)
        ++ whenNonEmpty enums
             ("## Enums" :: "" :: flat_map buildEnumDocs enums)).

Definition buildInterfaceDocsFile (fuel : nat) (int : Interface) : option File :=
  lines <- buildInterfaceDocs fuel int ;;
  Some {| path := buildInterfaceDocsFilepath int service options;
          contents := from lines |}.

Definition build (fuel : nat) : option (list File) :=
  mapM (buildInterfaceDocsFile fuel) (service_interfaces service).

End Builder.

(** [generateDocs]. *)
Definition generateDocs `{Host} (banner : Service -> option Options -> list string)
    (fuel : nat) (service : Service) (options : option Options)
  : option (list File) :=
  build banner service options fuel.

(** ** A sample host

    One implementation of the imported collaborators, used to run the
    generator on concrete services.  The case conversions follow package
    case on identifiers made of ASCII letters and digits whose words are
    separated by a space, an underscore, a hyphen or a capital letter; the
    comparison follows the root collation on ASCII letters (letters compare
    without case first, and lower case sorts before upper case on a tie). *)
Module Sample.

Definition isSeparator (c : ascii) : bool :=
  Ascii.eqb c " " || Ascii.eqb c "_" || Ascii.eqb c "-".

(** [Case.pascal]: the separators go and every word starts with a capital. *)
Fixpoint pascalGo (up : bool) (s : string) : string :=
  match s with
  | EmptyString => EmptyString
  | String c s' =>
      if isSeparator c then pascalGo true s'
      else String (if up then Js.upperChar c else c) (pascalGo false s')
  end.

Definition casePascal (s : string) : string := pascalGo true s.

(** [Case.snake]: lower case, the words joined by underscores. *)
Fixpoint snakeGo (first : bool) (s : string) : string :=
  match s with
  | EmptyString => EmptyString
  | String c s' =>
      if isSeparator c then String "_" (snakeGo true s')
      else if Js.isUpper c && negb first
           then String "_" (String (Js.lowerChar c) (snakeGo false s'))
           else String (Js.lowerChar c) (snakeGo false s')
  end.

Definition caseSnake (s : string) : string := snakeGo true s.

(** [Case.title]: the words capitalised and separated by spaces. *)
Fixpoint titleGo (up first : bool) (s : string) : string :=
  match s with
  | EmptyString => EmptyString
  | String c s' =>
      if isSeparator c then String " " (titleGo true true s')
      else if Js.isUpper c && negb first
           then String " " (String c (titleGo false false s'))
           else String (if up then Js.upperChar c else c) (titleGo false false s')
  end.

Definition caseTitle (s : string) : string := titleGo true true s.

Definition swapCase (c : ascii) : ascii :=
  if Js.isUpper c then Js.lowerChar c else Js.upperChar c.

Definition signOf (c : comparison) : Z :=
  match c with
  | Lt => (-1)%Z
  | Eq => 0%Z
  | Gt => 1%Z
  end.

Definition rootCompare (a b : string) : Z :=
  match String.compare (Js.mapChars Js.lowerChar a) (Js.mapChars Js.lowerChar b) with
  | Eq => signOf (String.compare (Js.mapChars swapCase a) (Js.mapChars swapCase b))
  | c => signOf c
  end.

Definition typeNamespace (service : Service) : string :=
  casePascal (service_title service) +++ "::Types".

Definition qualifiedTypeName (type : TypeRef) (service : Service)
    (options : option unit) (skipArrayify : bool) : string :=
  let arrayify (n : string) :=
    if isArray type && negb skipArrayify then "T::Array[" +++ n +++ "]" else n in
  if isPrimitive type then arrayify (typeName type)
  else arrayify (typeNamespace service +++ "::" +++ casePascal (typeName type)).

#[export] Instance host : Host := {|
  Options := unit;
  pascal := casePascal;
  snake := caseSnake;
  title := caseTitle;
  buildInterfaceName := fun int => casePascal (interface_name int +++ "_service");
  buildInterfaceNamespace := fun service _ => casePascal (service_title service);
  buildMethodName := fun method => caseSnake (method_name method);
  buildParameterName := fun param => caseSnake (param_name param);
  buildPropertyName := fun prop => caseSnake (param_name prop);
  buildTypeNamespace := fun service _ => typeNamespace service;
  sorbetTypeName := qualifiedTypeName;
  localeCompare := rootCompare
|}.

Definition banner (service : Service) (options : option unit) : list string :=
  ["This code was generated by a tool."].

Definition prim (name : string) : TypeRef := mkTypeRef name true false.
Definition named (name : string) : TypeRef := mkTypeRef name false false.
Definition arrayOf (name : string) : TypeRef := mkTypeRef name false true.

Definition required (name : string) (type : TypeRef) : Param :=
  mkParam name type true None.
Definition optional (name : string) (type : TypeRef) : Param :=
  mkParam name type false None.

End Sample.

(** ** Vocabulary of the properties *)

(** A reference resolves to a type: it is not primitive and the registry
    answers its name. *)
Definition resolves (service : Service) (ref : TypeRef) (type : Type_) : Prop :=
  isPrimitive ref = false /\ getTypeByName service (typeName ref) = Some type.

(** The references a type graph is made of: [reachesType service t u] when
    [u] is [t] or is reached from it through resolving properties. *)
Inductive reachesType (service : Service) : Type_ -> Type_ -> Prop :=
| reaches_here : forall t, reachesType service t t
| reaches_property : forall t prop u v,
    In prop (type_properties t) ->
    resolves service (param_type prop) u ->
    reachesType service u v ->
    reachesType service t v.

(** The type references of the methods of an interface: the parameters and
    the return types. *)
Definition refOfInterface (int : Interface) (ref : TypeRef) : Prop :=
  exists method,
    In method (interface_methods int) /\
    ((exists param, In param (method_parameters method) /\ param_type param = ref)
     \/ method_returnType method = Some ref).

Definition reachableType (service : Service) (int : Interface) (type : Type_) : Prop :=
  exists ref root,
    refOfInterface int ref /\ resolves service ref root /\
    reachesType service root type.

(** Ascending order of a list by a key, under the comparison of the host. *)
Definition ascendingBy `{Host} {A : Type} (key : A -> string) (l : list A) : Prop :=
  StronglySorted (fun a b => (localeCompare (key a) (key b) <= 0)%Z) l.

(** The same order, strict: no two neighbours compare equal. *)
Definition strictlyAscendingBy `{Host} {A : Type} (key : A -> string) (l : list A)
  : Prop :=
  StronglySorted (fun a b => (localeCompare (key a) (key b) < 0)%Z) l.

(** Ascending order under the ordinal comparison of code units, strict. *)
Definition ordinalAscending (names : list string) : Prop :=
  StronglySorted (fun a b => String.ltb a b = true) names.

(** Types that the registry answers for their own name are told apart by
    their names: on them, identity of objects is equality of names. *)
Definition registered (service : Service) (type : Type_) : Prop :=
  getTypeByName service (type_name type) = Some type.

(** Likewise for the enums. *)
Definition registeredEnum (service : Service) (e : Enum) : Prop :=
  getEnumByName service (enum_name e) = Some e.

(** A set of found enums: no duplicates, all of them registered. *)
Definition enumSet (service : Service) (found : list Enum) : Prop :=
  NoDup found /\ Forall (registeredEnum service) found.

(** A type lies on a reference cycle when one of its properties resolves to
    a type from which it is reached again. *)
Definition onCycle (service : Service) (type : Type_) : Prop :=
  exists prop u,
    In prop (type_properties type)
    /\ resolves service (param_type prop) u
    /\ reachesType service u type.

(** What one step of the walk does to the set of found types: it adds the
    types described by [P], keeps the set free of duplicates and keeps it
    within the registered types. *)
Definition extends (service : Service) (found found' : list Type_)
    (P : Type_ -> Prop) : Prop :=
  (forall v, In v found' <-> In v found \/ P v)
  /\ (NoDup found -> NoDup found')
  /\ (Forall (registered service) found -> Forall (registered service) found').

(** The types a reference, the parameters, a method and the methods of an
    interface lead to. *)
Definition fromRef (service : Service) (ref : TypeRef) (v : Type_) : Prop :=
  exists root, resolves service ref root /\ reachesType service root v.

Definition fromParameters (service : Service) (params : list Param) (v : Type_)
  : Prop :=
  exists param, In param params /\ fromRef service (param_type param) v.

Definition fromMethod (service : Service) (method : Method) (v : Type_) : Prop :=
  fromParameters service (method_parameters method) v
  \/ exists ref, method_returnType method = Some ref /\ fromRef service ref v.

Definition fromMethods (service : Service) (ms : list Method) (v : Type_) : Prop :=
  exists method, In method ms /\ fromMethod service method v.

(** A computation is stable when more fuel never changes a result. *)
Definition stable {X : Type} (f : nat -> option X) : Prop :=
  forall n m x, n <= m -> f n = Some x -> f m = Some x.

(** A parameter that is not required. *)
Definition isOptional (param : Param) : bool := negb (isRequired param).

(** The lines of the table of contents for given collections. *)
Definition tocLines `{Host} (ms : list Method) (ts : list Type_) (es : list Enum)
  : list string :=
  whenNonEmpty ms
    ("- Methods"
     :: map (fun method =>
               "  - [" +++ buildMethodName method +++ "]("
               +++ anchor (buildMethodName method) +++ ")") ms)
  ++ whenNonEmpty ts
       ("- Types"
        :: map (fun type =>
                  "  - [" +++ pascal (type_name type) +++ "]("
                  +++ anchor (type_name type) +++ ")") ts)
  ++ whenNonEmpty es
       ("- Enums"
        :: map (fun e =>
                  "  - [" +++ pascal (enum_name e) +++ "]("
                  +++ anchor (enum_name e) +++ ")") es).

(** The lines of the three sections for given collections. *)
Definition sectionLines `{Host} (service : Service) (options : option Options)
    (ms : list Method) (ts : list Type_) (es : list Enum) : list string :=
  whenNonEmpty ms
    ("## Methods" :: "" :: flat_map (buildMethodDocs service options) ms)
  ++ whenNonEmpty ts
       ("## Types" :: "" :: flat_map (buildTypeDocs service options) ts)
  ++ whenNonEmpty es
       ("## Enums" :: "" :: flat_map (buildEnumDocs service options) es).

(** The lines in front of the sections: banner, title, table of contents. *)
Definition headerLines `{Host} (banner : Service -> option Options -> list string)
    (service : Service) (options : option Options) (int : Interface)
    (toc : list string) : list string :=
  warning banner service options
  ++ [""; "# " +++ title (buildInterfaceName int); ""] ++ toc ++ [""].

(** Appends of lists brought to one right-nested form. *)
Ltac flatten_app := repeat (progress (rewrite <- ?app_assoc; simpl)).

(** A chain of types, each reached from the one before through a resolving
    property, starting from [type]. *)
Fixpoint isPath (service : Service) (type : Type_) (chain : list Type_) : Prop :=
  match chain with
  | [] => True
  | u :: rest =>
      (exists prop, In prop (type_properties type)
                    /\ resolves service (param_type prop) u)
      /\ isPath service u rest
  end.

(** No type reached from [type] lies on a reference cycle. *)
Definition acyclicFrom (service : Service) (type : Type_) : Prop :=
  forall u, reachesType service type u -> ~ onCycle service u.

(** A reference resolves to an enum. *)
Definition resolvesEnum (service : Service) (ref : TypeRef) (e : Enum) : Prop :=
  isPrimitive ref = false /\ getEnumByName service (typeName ref) = Some e.

(** The enums of an interface: those a parameter or a return type of its
    methods resolves to, and those a property of a reachable type resolves
    to. *)
Definition reachableEnum (service : Service) (int : Interface) (e : Enum) : Prop :=
  (exists ref, refOfInterface int ref /\ resolvesEnum service ref e)
  \/ (exists type prop,
        reachableType service int type
        /\ In prop (type_properties type)
        /\ resolvesEnum service (param_type prop) e).

(** A name made of ASCII characters only (code units below 128). *)
Definition isAscii (s : string) : bool :=
  forallb (fun c => (nat_of_ascii c <? 128)%nat) (list_ascii_of_string s).

(** What [anchor] makes of one character of a name: the character in lower
    case, or a hyphen when that is a space. *)
Definition anchorChar (c : ascii) : ascii :=
  let l := Js.lowerChar c in
  if Ascii.eqb l " " then "-"%char else l.

(** The traversal of whatever type a reference resolves to returns with the
    given fuel. *)
Definition traversable (service : Service) (fuel : nat) (ref : TypeRef) : Prop :=
  forall root, resolves service ref root ->
  exists r, traverseType fuel service root = Some r.

(** ** Sample services *)

Module Fixtures.
Import Sample.

(** Two types that reference each other. *)
Definition typeA : Type_ := mkType "a" [required "b" (named "b")] None.
Definition typeB : Type_ := mkType "b" [required "a" (named "a")] None.

Definition cyclicInterface : Interface :=
  mkInterface "loops"
    [mkMethod "getA" [required "id" (prim "string")] (Some (named "a")) None].

Definition cyclicService : Service :=
  mkService "cyclic" [cyclicInterface] [typeA; typeB] [].

(** A widget made of parts, with a colour. *)
Definition part : Type_ :=
  mkType "part" [required "name" (prim "string")] None.
Definition widget : Type_ :=
  mkType "widget"
    [required "name" (prim "string");
     optional "parts" (arrayOf "part");
     optional "colour" (named "colour")]
    (Some (Single "A widget.")).
Definition colour : Enum := mkEnum "colour" ["red"; "green"; "blue"].

Definition getWidgets : Method :=
  mkMethod "getWidgets" [optional "colour" (named "colour")]
    (Some (arrayOf "widget")) None.
Definition getWidgetZones : Method :=
  mkMethod "getWidgetZones" [required "widget" (named "widget")]
    (Some (prim "string")) None.

Definition widgetInterface : Interface :=
  mkInterface "widgets" [getWidgetZones; getWidgets].

Definition widgetService : Service :=
  mkService "example" [widgetInterface] [widget; part] [colour].

(** A parameter whose type is in neither registry. *)
Definition gadgetParam : Param := required "gadget" (named "gadget").
Definition putGadget : Method := mkMethod "putGadget" [gadgetParam] None None.
Definition gadgetInterface : Interface := mkInterface "gadgets" [putGadget].
Definition gadgetService : Service :=
  mkService "example" [gadgetInterface] [widget; part] [colour].

(** The same interface over the registry of the two types that reference
    each other, which the interface does not reach. *)
Definition gadgetCyclicService : Service :=
  mkService "example" [gadgetInterface] [typeA; typeB] [].

(** A type whose name is written with an underscore. *)
Definition userProfile : Type_ :=
  mkType "user_profile" [required "name" (prim "string")] None.
Definition getProfile : Method :=
  mkMethod "getProfile" [] (Some (named "user_profile")) None.
Definition profileInterface : Interface := mkInterface "profiles" [getProfile].
Definition profileService : Service :=
  mkService "example" [profileInterface] [userProfile] [].

(** Optional and required parameters in turn. *)
Definition mixedParams : list Param :=
  [optional "a" (prim "string"); required "b" (prim "string");
   optional "c" (prim "string"); required "d" (prim "string")].
Definition mixedMethod : Method := mkMethod "mixed" mixedParams None None.

Definition otherBanner (service : Service) (options : option unit) : list string :=
  ["This code was generated by another version of the tool."; "Do not edit."].
End Fixtures.

(** ** Properties of the primitives *)

Section SortFacts.
Context {A : Type} (cmp : A -> A -> Z).

Lemma insert_perm (x : A) (l : list A) :
  Permutation (Js.insert cmp x l) (x :: l).
Proof.
  induction l as [|y l IH]; simpl.
  - apply Permutation_refl.
  - destruct (cmp x y <=? 0)%Z.
    + apply Permutation_refl.
    + apply perm_trans with (y :: x :: l).
      * apply perm_skip, IH.
      * apply perm_swap.
Qed.

Lemma sort_perm (l : list A) : Permutation (Js.sort cmp l) l.
Proof.
  induction l as [|x l IH]; simpl.
  - apply perm_nil.
  - apply perm_trans with (x :: Js.sort cmp l).
    + apply insert_perm.
    + apply perm_skip, IH.
Qed.

Lemma sort_In (l : list A) (x : A) : In x (Js.sort cmp l) <-> In x l.
Proof.
  split; apply Permutation_in.
  - apply sort_perm.
  - apply Permutation_sym, sort_perm.
Qed.

Hypothesis cmp_total : forall a b, (cmp a b <= 0 \/ cmp b a <= 0)%Z.
Hypothesis cmp_trans :
  forall a b c, (cmp a b <= 0 -> cmp b c <= 0 -> cmp a c <= 0)%Z.

Lemma insert_sorted (x : A) (l : list A) :
  StronglySorted (fun a b => (cmp a b <= 0)%Z) l ->
  StronglySorted (fun a b => (cmp a b <= 0)%Z) (Js.insert cmp x l).
Proof.
  induction 1 as [|y l Hl IH Hy]; simpl.
  - constructor; constructor.
  - destruct (cmp x y <=? 0)%Z eqn:E.
    + apply Z.leb_le in E.
      constructor; [constructor; assumption|].
      constructor; [exact E|].
      rewrite Forall_forall in Hy |- *. intros z Hz.
      apply cmp_trans with y; [exact E | apply Hy, Hz].
    + apply Z.leb_gt in E.
      constructor; [exact IH|].
      rewrite Forall_forall in Hy |- *. intros z Hz.
      apply (Permutation_in _ (insert_perm x l)) in Hz.
      destruct Hz as [<- | Hz].
      * destruct (cmp_total x y) as [C | C]; [lia | exact C].
      * apply Hy, Hz.
Qed.

Lemma sort_sorted (l : list A) :
  StronglySorted (fun a b => (cmp a b <= 0)%Z) (Js.sort cmp l).
Proof.
  induction l as [|x l IH]; simpl.
  - constructor.
  - apply insert_sorted, IH.
Qed.
End SortFacts.

Section SetFacts.
Context {A : Type} (eq_dec : forall a b : A, {a = b} + {a <> b}).

Lemma setAdd_In (found : list A) (x y : A) :
  In y (Js.setAdd eq_dec found x) <-> In y found \/ y = x.
Proof.
  unfold Js.setAdd. destruct (in_dec eq_dec x found) as [Hin | Hout].
  - split; [auto | intros [H | ->]; assumption].
  - rewrite in_app_iff. simpl. intuition.
Qed.

Lemma setAdd_NoDup (found : list A) (x : A) :
  NoDup found -> NoDup (Js.setAdd eq_dec found x).
Proof.
  intros Hnd. unfold Js.setAdd.
  destruct (in_dec eq_dec x found) as [Hin | Hout]; [exact Hnd|].
  apply (Permutation_NoDup (Permutation_cons_append found x)).
  constructor; assumption.
Qed.

Lemma setAddAll_In (xs found : list A) (y : A) :
  In y (Js.setAddAll eq_dec found xs) <-> In y found \/ In y xs.
Proof.
  unfold Js.setAddAll. revert found.
  induction xs as [|x xs IH]; intros found; simpl.
  - intuition.
  - rewrite IH, setAdd_In. intuition.
Qed.

Lemma setAddAll_NoDup (xs found : list A) :
  NoDup found -> NoDup (Js.setAddAll eq_dec found xs).
Proof.
  unfold Js.setAddAll. revert found.
  induction xs as [|x xs IH]; intros found Hnd; simpl.
  - exact Hnd.
  - apply IH, setAdd_NoDup, Hnd.
Qed.
End SetFacts.

Lemma bind_Some {A B : Type} (m : option A) (k : A -> option B) (b : B) :
  bind m k = Some b <-> exists a, m = Some a /\ k a = Some b.
Proof.
  destruct m as [a|]; simpl.
  - split; [intros E; exists a; auto | intros (a' & E & E'); congruence].
  - split; [discriminate | intros (a' & E & _); discriminate].
Qed.

Lemma flat_map_segment {A B : Type} (f : A -> list B) (l : list A) (x : A) :
  In x l -> exists before after, flat_map f l = before ++ f x ++ after.
Proof.
  induction l as [|y l IH]; simpl; [contradiction|].
  intros [-> | Hin].
  - exists [], (flat_map f l). reflexivity.
  - destruct (IH Hin) as (before & after & E).
    exists (f y ++ before), after. rewrite E, app_assoc. reflexivity.
Qed.

(** ** The registry *)

Lemma getTypeByName_Some (service : Service) (name : string) (type : Type_) :
  getTypeByName service name = Some type ->
  In type (service_types service) /\ type_name type = name.
Proof.
  unfold getTypeByName. intros E. apply find_some in E.
  destruct E as [Hin Hname]. apply String.eqb_eq in Hname. auto.
Qed.

Lemma getTypeByName_registered (service : Service) (name : string) (type : Type_) :
  getTypeByName service name = Some type ->
  getTypeByName service (type_name type) = Some type.
Proof.
  intros E. destruct (getTypeByName_Some _ _ _ E) as [_ ->]. exact E.
Qed.

Lemma getTypeByName_None (service : Service) (name : string) (type : Type_) :
  getTypeByName service name = None ->
  In type (service_types service) -> type_name type <> name.
Proof.
  unfold getTypeByName. intros E Hin Hname.
  pose proof (find_none _ _ E _ Hin) as Hf. simpl in Hf.
  apply String.eqb_neq in Hf. contradiction.
Qed.

Lemma getEnumByName_Some (service : Service) (name : string) (e : Enum) :
  getEnumByName service name = Some e ->
  In e (service_enums service) /\ enum_name e = name.
Proof.
  unfold getEnumByName. intros E. apply find_some in E.
  destruct E as [Hin Hname]. apply String.eqb_eq in Hname. auto.
Qed.

Lemma registered_NoDup_names (service : Service) (l : list Type_) :
  Forall (registered service) l -> NoDup l -> NoDup (map type_name l).
Proof.
  induction l as [|t l IH]; simpl; intros Hreg Hnd.
  - constructor.
  - inversion Hreg as [|? ? Ht Hl]; subst. inversion Hnd as [|? ? Hnotin Hnd']; subst.
    constructor; [|apply IH; assumption].
    intros Hin. apply in_map_iff in Hin. destruct Hin as (u & Hname & Hu).
    rewrite Forall_forall in Hl. specialize (Hl u Hu).
    unfold registered in Ht, Hl. rewrite Hname in Hl.
    assert (u = t) by congruence. subst u. contradiction.
Qed.

(** ** The traversal *)

Section Traversal.
Variable service : Service.

(** What [traverseProperties] returns, given what its recursive call does. *)
Lemma traverseProperties_spec (rec : Type_ -> option (list Type_))
    (props : list Property) (sub : list Type_) :
  (forall u r, rec u = Some r -> forall v, In v r <-> reachesType service u v) ->
  traverseProperties rec service props = Some sub ->
  forall v, In v sub <->
    exists prop u, In prop props /\ resolves service (param_type prop) u
                   /\ reachesType service u v.
Proof.
  intros Hrec. revert sub.
  induction props as [|prop props IH]; simpl; intros sub E v.
  - injection E as <-. split; [contradiction | intros (p & u & [] & _)].
  - apply bind_Some in E. destruct E as (here & Ehere & E).
    apply bind_Some in E. destruct E as (rest & Erest & E).
    injection E as <-. rewrite in_app_iff, (IH _ Erest v).
    split.
    + intros [Hv | (p & u & Hp & Hres & Hreach)].
      * destruct (isPrimitive (param_type prop)) eqn:Eprim;
          [injection Ehere as <-; contradiction|].
        destruct (getTypeByName service (typeName (param_type prop))) as [u|] eqn:Eu;
          [|injection Ehere as <-; contradiction].
        exists prop, u. split; [left; reflexivity|]. split; [split; assumption|].
        apply (Hrec _ _ Ehere), Hv.
      * exists p, u. auto.
    + intros (p & u & [<- | Hp] & Hres & Hreach).
      * left. destruct Hres as [Eprim Eu]. rewrite Eprim, Eu in Ehere.
        apply (Hrec _ _ Ehere), Hreach.
      * right. exists p, u. auto.
Qed.

Lemma traverseProperties_mono (rec rec' : Type_ -> option (list Type_))
    (props : list Property) (sub : list Type_) :
  (forall u r, rec u = Some r -> rec' u = Some r) ->
  traverseProperties rec service props = Some sub ->
  traverseProperties rec' service props = Some sub.
Proof.
  intros Hrec. revert sub.
  induction props as [|prop props IH]; simpl; intros sub E; [exact E|].
  apply bind_Some in E. destruct E as (here & Ehere & E).
  apply bind_Some in E. destruct E as (rest & Erest & E).
  rewrite (IH _ Erest).
  destruct (isPrimitive (param_type prop)).
  - rewrite Ehere. exact E.
  - destruct (getTypeByName service (typeName (param_type prop))) as [u|].
    + rewrite (Hrec _ _ Ehere). exact E.
    + rewrite Ehere. exact E.
Qed.

Lemma traverseProperties_registered (rec : Type_ -> option (list Type_))
    (props : list Property) (sub : list Type_) :
  (forall u r, registered service u -> rec u = Some r -> Forall (registered service) r) ->
  traverseProperties rec service props = Some sub ->
  Forall (registered service) sub.
Proof.
  intros Hrec. revert sub.
  induction props as [|prop props IH]; simpl; intros sub E.
  - injection E as <-. constructor.
  - apply bind_Some in E. destruct E as (here & Ehere & E).
    apply bind_Some in E. destruct E as (rest & Erest & E).
    injection E as <-. apply Forall_app. split; [|apply IH, Erest].
    destruct (isPrimitive (param_type prop)); [injection Ehere as <-; constructor|].
    destruct (getTypeByName service (typeName (param_type prop))) as [u|] eqn:Eu;
      [|injection Ehere as <-; constructor].
    apply (Hrec u); [|exact Ehere].
    eapply getTypeByName_registered, Eu.
Qed.

(** The traversal yields exactly the types reached from its root. *)
Lemma traverseType_spec (fuel : nat) :
  forall type r, traverseType fuel service type = Some r ->
  forall v, In v r <-> reachesType service type v.
Proof.
  induction fuel as [|fuel IH]; simpl; intros type r E v; [discriminate|].
  apply bind_Some in E. destruct E as (sub & Esub & E). injection E as <-.
  simpl. rewrite (traverseProperties_spec _ _ _ IH Esub v). split.
  - intros [<- | (prop & u & Hp & Hres & Hreach)].
    + constructor.
    + econstructor; eassumption.
  - intros Hreach. inversion Hreach as [|? prop u ? Hp Hres Hreach']; subst.
    + left; reflexivity.
    + right. exists prop, u. auto.
Qed.

(** More fuel does not change a traversal that returned. *)
Lemma traverseType_mono (fuel fuel' : nat) :
  fuel <= fuel' ->
  forall type r, traverseType fuel service type = Some r ->
                 traverseType fuel' service type = Some r.
Proof.
  revert fuel'. induction fuel as [|fuel IH]; intros fuel' Hle type r E;
    [discriminate|].
  destruct fuel' as [|fuel']; [lia|]. simpl in E |- *.
  apply bind_Some in E. destruct E as (sub & Esub & E).
  rewrite (traverseProperties_mono _ (traverseType fuel' service) _ _
             (IH fuel' ltac:(lia)) Esub).
  exact E.
Qed.

Lemma traverseType_registered (fuel : nat) :
  forall type r, registered service type ->
  traverseType fuel service type = Some r -> Forall (registered service) r.
Proof.
  induction fuel as [|fuel IH]; simpl; intros type r Hreg E; [discriminate|].
  apply bind_Some in E. destruct E as (sub & Esub & E). injection E as <-.
  constructor; [exact Hreg|].
  eapply traverseProperties_registered; [|exact Esub]. exact IH.
Qed.

Lemma reachesType_trans (a b c : Type_) :
  reachesType service a b -> reachesType service b c -> reachesType service a c.
Proof.
  induction 1 as [|t prop u v Hp Hres _ IH]; intros Hbc; [exact Hbc|].
  econstructor; [exact Hp | exact Hres | apply IH, Hbc].
Qed.

Lemma traverseProperties_calls (rec : Type_ -> option (list Type_))
    (props : list Property) (sub : list Type_) (prop : Property) (u : Type_) :
  traverseProperties rec service props = Some sub ->
  In prop props -> resolves service (param_type prop) u ->
  exists r, rec u = Some r.
Proof.
  revert sub. induction props as [|p props IH]; simpl; intros sub E Hin Hres;
    [contradiction|].
  apply bind_Some in E. destruct E as (here & Ehere & E).
  apply bind_Some in E. destruct E as (rest & Erest & _).
  destruct Hin as [-> | Hin]; [|apply (IH _ Erest Hin Hres)].
  destruct Hres as [Eprim Eu]. rewrite Eprim, Eu in Ehere.
  exists here. exact Ehere.
Qed.

(** Without a visited set the traversal of a type on a reference cycle
    returns with no amount of fuel. *)
Lemma traverseType_onCycle (fuel : nat) :
  forall type, onCycle service type -> traverseType fuel service type = None.
Proof.
  induction fuel as [|fuel IH]; intros type (prop & u & Hp & Hres & Hreach);
    [reflexivity|]. simpl.
  destruct (traverseProperties (traverseType fuel service) service
              (type_properties type)) as [sub|] eqn:E; [|reflexivity].
  destruct (traverseProperties_calls _ _ _ _ _ E Hp Hres) as (r & Er).
  rewrite IH in Er; [discriminate|].
  inversion Hreach as [|? prop' w ? Hp' Hres' Hreach']; subst.
  - exists prop, type. split; [exact Hp|]. split; [exact Hres | constructor].
  - exists prop', w. split; [exact Hp'|]. split; [exact Hres'|].
    apply (reachesType_trans _ _ _ Hreach').
    econstructor; [exact Hp | exact Hres | constructor].
Qed.

End Traversal.

(** ** The reachable types of an interface *)

Section ReachableTypes.
Variable service : Service.

Lemma extends_refl (found : list Type_) (P : Type_ -> Prop) :
  (forall v, ~ P v) -> extends service found found P.
Proof.
  intros HP. split; [|split; auto].
  intros v. split; [auto | intros [H | H]; [exact H | destruct (HP v H)]].
Qed.

Lemma extends_trans (a b c : list Type_) (P Q R : Type_ -> Prop) :
  extends service a b P -> extends service b c Q -> (forall v, R v <-> P v \/ Q v) ->
  extends service a c R.
Proof.
  intros (Hab & Nab & Rab) (Hbc & Nbc & Rbc) HR. split; [|split; auto].
  intros v. rewrite Hbc, Hab, HR. tauto.
Qed.

Lemma typesOfRef_spec (fuel : nat) (ref : TypeRef) (found found' : list Type_) :
  typesOfRef service fuel ref found = Some found' ->
  extends service found found' (fromRef service ref).
Proof.
  unfold typesOfRef. intros E.
  destruct (isPrimitive ref) eqn:Eprim.
  { injection E as <-. apply extends_refl.
    intros v (root & [Hp _] & _). congruence. }
  destruct (getTypeByName service (typeName ref)) as [root|] eqn:Eroot.
  2:{ injection E as <-. apply extends_refl.
      intros v (root & [_ Hr] & _). congruence. }
  apply bind_Some in E. destruct E as (yielded & Ey & E). injection E as <-.
  split; [|split].
  - intros v. rewrite setAddAll_In, (traverseType_spec _ _ _ _ Ey v).
    split; (intros [H | H]; [left; exact H | right]).
    + exists root. split; [split; assumption | exact H].
    + destruct H as (root' & [_ Hr] & Hreach). congruence.
  - apply setAddAll_NoDup.
  - intros Hreg. rewrite Forall_forall in Hreg |- *. intros v Hv.
    apply setAddAll_In in Hv. destruct Hv as [Hv | Hv]; [apply Hreg, Hv|].
    assert (Hy : Forall (registered service) yielded).
    { eapply traverseType_registered; [|exact Ey].
      eapply getTypeByName_registered, Eroot. }
    rewrite Forall_forall in Hy. apply Hy, Hv.
Qed.

Lemma typesOfRef_mono (fuel fuel' : nat) (ref : TypeRef) (found found' : list Type_) :
  fuel <= fuel' ->
  typesOfRef service fuel ref found = Some found' ->
  typesOfRef service fuel' ref found = Some found'.
Proof.
  unfold typesOfRef. intros Hle E.
  destruct (isPrimitive ref); [exact E|].
  destruct (getTypeByName service (typeName ref)) as [root|]; [|exact E].
  apply bind_Some in E. destruct E as (yielded & Ey & E).
  rewrite (traverseType_mono _ _ _ Hle _ _ Ey). exact E.
Qed.

Lemma typesOfParameters_spec (fuel : nat) (params : list Param) :
  forall found found',
    typesOfParameters service fuel params found = Some found' ->
    extends service found found' (fromParameters service params).
Proof.
  induction params as [|param params IH]; simpl; intros found found' E.
  - injection E as <-. apply extends_refl. intros v (p & [] & _).
  - apply bind_Some in E. destruct E as (f & Ef & E).
    eapply extends_trans; [apply (typesOfRef_spec _ _ _ _ Ef) | apply IH, E|].
    intros v. unfold fromParameters. split.
    + intros (p & [<- | Hp] & Hv); [left; exact Hv | right; exists p; auto].
    + intros [Hv | (p & Hp & Hv)]; [exists param | exists p]; simpl; auto.
Qed.

Lemma typesOfMethod_spec (fuel : nat) (method : Method) (found found' : list Type_) :
  typesOfMethod service fuel method found = Some found' ->
  extends service found found' (fromMethod service method).
Proof.
  unfold typesOfMethod. intros E.
  apply bind_Some in E. destruct E as (f & Ef & E).
  apply typesOfParameters_spec in Ef. unfold fromMethod.
  destruct (method_returnType method) as [ref|].
  - eapply extends_trans; [exact Ef | apply (typesOfRef_spec _ _ _ _ E)|].
    intros v. split.
    + intros [H | (r & Er & H)]; [left; exact H | right; congruence].
    + intros [H | H]; [left; exact H | right; exists ref; auto].
  - injection E as <-.
    eapply extends_trans; [exact Ef | apply (extends_refl _ (fun _ => False)); auto|].
    intros v. split.
    + intros [H | (r & Er & _)]; [left; exact H | discriminate].
    + intros [H | []]. left; exact H.
Qed.

Lemma typesOfMethods_spec (fuel : nat) (ms : list Method) :
  forall found found',
    typesOfMethods service fuel ms found = Some found' ->
    extends service found found' (fromMethods service ms).
Proof.
  induction ms as [|method ms IH]; simpl; intros found found' E.
  - injection E as <-. apply extends_refl. intros v (m & [] & _).
  - apply bind_Some in E. destruct E as (f & Ef & E).
    eapply extends_trans; [apply (typesOfMethod_spec _ _ _ _ Ef) | apply IH, E|].
    intros v. unfold fromMethods. split.
    + intros (m & [<- | Hm] & Hv); [left; exact Hv | right; exists m; auto].
    + intros [Hv | (m & Hm & Hv)]; [exists method | exists m]; simpl; auto.
Qed.

Lemma typesOfParameters_mono (fuel fuel' : nat) (params : list Param) :
  fuel <= fuel' ->
  forall found found',
    typesOfParameters service fuel params found = Some found' ->
    typesOfParameters service fuel' params found = Some found'.
Proof.
  intros Hle. induction params as [|param params IH]; simpl; intros found found' E;
    [exact E|].
  apply bind_Some in E. destruct E as (f & Ef & E).
  rewrite (typesOfRef_mono _ _ _ _ _ Hle Ef). simpl. apply IH, E.
Qed.

Lemma typesOfMethod_mono (fuel fuel' : nat) (method : Method)
    (found found' : list Type_) :
  fuel <= fuel' ->
  typesOfMethod service fuel method found = Some found' ->
  typesOfMethod service fuel' method found = Some found'.
Proof.
  unfold typesOfMethod. intros Hle E.
  apply bind_Some in E. destruct E as (f & Ef & E).
  rewrite (typesOfParameters_mono _ _ _ Hle _ _ Ef). simpl.
  destruct (method_returnType method); [|exact E].
  apply (typesOfRef_mono _ _ _ _ _ Hle E).
Qed.

Lemma typesOfMethods_mono (fuel fuel' : nat) (ms : list Method) :
  fuel <= fuel' ->
  forall found found',
    typesOfMethods service fuel ms found = Some found' ->
    typesOfMethods service fuel' ms found = Some found'.
Proof.
  intros Hle. induction ms as [|method ms IH]; simpl; intros found found' E;
    [exact E|].
  apply bind_Some in E. destruct E as (f & Ef & E).
  rewrite (typesOfMethod_mono _ _ _ _ _ Hle Ef). simpl. apply IH, E.
Qed.

Lemma fromMethods_reachable (int : Interface) (v : Type_) :
  fromMethods service (interface_methods int) v <-> reachableType service int v.
Proof.
  unfold fromMethods, fromMethod, fromParameters, fromRef, reachableType,
    refOfInterface.
  split.
  - intros (m & Hm & [(p & Hp & root & Hres & Hreach) | (ref & Eref & root & Hres & Hreach)]).
    + exists (param_type p), root. split; [|auto].
      exists m. split; [exact Hm|]. left. exists p. auto.
    + exists ref, root. split; [|auto]. exists m. auto.
  - intros (ref & root & (m & Hm & [(p & Hp & <-) | Eref]) & Hres & Hreach).
    + exists m. split; [exact Hm|]. left. exists p. split; [exact Hp|].
      exists root. auto.
    + exists m. split; [exact Hm|]. right. exists ref. split; [exact Eref|].
      exists root. auto.
Qed.
End ReachableTypes.

(** ** Fuel *)

Lemma stable_agree {X : Type} (f : nat -> option X) (n m : nat) (x y : X) :
  stable f -> f n = Some x -> f m = Some y -> x = y.
Proof.
  intros Hf Ex Ey.
  pose proof (Hf n (Nat.max n m) x (Nat.le_max_l _ _) Ex) as Hx.
  pose proof (Hf m (Nat.max n m) y (Nat.le_max_r _ _) Ey) as Hy.
  congruence.
Qed.

Lemma stable_bind {X Y : Type} (f : nat -> option X) (g : nat -> X -> option Y) :
  stable f -> (forall x, stable (fun n => g n x)) ->
  stable (fun n => bind (f n) (g n)).
Proof.
  intros Hf Hg n m y Hle E. apply bind_Some in E. destruct E as (x & Ex & Ey).
  rewrite (Hf _ _ _ Hle Ex). simpl. apply (Hg x _ _ _ Hle Ey).
Qed.

Lemma stable_const {X : Type} (x : option X) : stable (fun _ => x).
Proof. intros n m y _ E. exact E. Qed.

Lemma stable_mapM {X Y : Type} (f : nat -> X -> option Y) (l : list X) :
  (forall x, stable (fun n => f n x)) -> stable (fun n => mapM (f n) l).
Proof.
  intros Hf. induction l as [|x l IH]; simpl.
  - apply stable_const.
  - apply (stable_bind (fun n => f n x)); [apply Hf|]. intros y.
    apply (stable_bind (fun n => mapM (f n) l)); [exact IH|]. intros ys.
    apply stable_const.
Qed.

Lemma mapM_length {X Y : Type} (f : X -> option Y) (l : list X) (r : list Y) :
  mapM f l = Some r -> Forall2 (fun x y => f x = Some y) l r.
Proof.
  revert r. induction l as [|x l IH]; simpl; intros r E.
  - injection E as <-. constructor.
  - apply bind_Some in E. destruct E as (y & Ey & E).
    apply bind_Some in E. destruct E as (ys & Eys & E). injection E as <-.
    constructor; [exact Ey | apply IH, Eys].
Qed.

Lemma mapM_total {X Y : Type} (f : X -> option Y) (l : list X) :
  (forall x, In x l -> exists y, f x = Some y) -> exists r, mapM f l = Some r.
Proof.
  induction l as [|x l IH]; simpl; intros Hf.
  - eexists; reflexivity.
  - destruct (Hf x (or_introl eq_refl)) as (y & ->).
    destruct IH as (ys & ->); [intros z Hz; apply Hf; right; exact Hz|].
    eexists; reflexivity.
Qed.

(** ** The builder *)

Section BuilderFacts.
Context {host : Host}.
Variable banner : Service -> option Options -> list string.
Variable service : Service.
Variable options : option Options.

Lemma methods_perm (int : Interface) :
  Permutation (methods int) (interface_methods int).
Proof. apply sort_perm. Qed.

Lemma types_spec (fuel : nat) (int : Interface) (ts : list Type_) :
  types service fuel int = Some ts ->
  (forall v, In v ts <-> reachableType service int v)
  /\ NoDup (map type_name ts)
  /\ Forall (registered service) ts.
Proof.
  unfold types. intros E. apply bind_Some in E.
  destruct E as (found & Ef & E). injection E as <-.
  destruct (typesOfMethods_spec _ _ _ _ _ Ef) as (Hin & Hnd & Hreg).
  specialize (Hnd (NoDup_nil _)). specialize (Hreg (Forall_nil _)).
  set (cmp := fun a b => localeCompare (type_name a) (type_name b)).
  assert (Hperm : Permutation (Js.sort cmp found) found) by apply sort_perm.
  assert (Hreg' : Forall (registered service) (Js.sort cmp found)).
  { rewrite Forall_forall in Hreg |- *. intros v Hv. apply Hreg.
    apply (Permutation_in _ Hperm), Hv. }
  split; [|split].
  - intros v. rewrite sort_In, Hin, fromMethods_reachable. simpl.
    split; [intros [[] | Hr]; exact Hr | intros Hr; right; exact Hr].
  - apply (registered_NoDup_names service); [exact Hreg'|].
    apply (Permutation_NoDup (Permutation_sym Hperm)), Hnd.
  - exact Hreg'.
Qed.

Lemma types_stable (int : Interface) : stable (fun fuel => types service fuel int).
Proof.
  unfold types.
  apply (stable_bind (fun fuel => typesOfMethods service fuel (interface_methods int) [])).
  - intros n m x Hle E. apply (typesOfMethods_mono _ _ _ _ Hle _ _ E).
  - intros x. apply stable_const.
Qed.

Lemma enums_stable (int : Interface) : stable (fun fuel => enums service fuel int).
Proof.
  unfold enums.
  apply (stable_bind (fun fuel => types service fuel int)).
  - apply types_stable.
  - intros x. apply stable_const.
Qed.

Lemma buildToc_stable (int : Interface) :
  stable (fun fuel => buildToc service fuel int).
Proof.
  unfold buildToc.
  apply (stable_bind (fun fuel => types service fuel int)); [apply types_stable|].
  intros ts.
  apply (stable_bind (fun fuel => enums service fuel int)); [apply enums_stable|].
  intros es. apply stable_const.
Qed.

Lemma buildInterfaceDocs_stable (int : Interface) :
  stable (fun fuel => buildInterfaceDocs banner service options fuel int).
Proof.
  unfold buildInterfaceDocs.
  apply (stable_bind (fun fuel => types service fuel int)); [apply types_stable|].
  intros ts.
  apply (stable_bind (fun fuel => enums service fuel int)); [apply enums_stable|].
  intros es.
  apply (stable_bind (fun fuel => buildToc service fuel int)); [apply buildToc_stable|].
  intros toc. apply stable_const.
Qed.

Lemma buildInterfaceDocsFile_stable (int : Interface) :
  stable (fun fuel => buildInterfaceDocsFile banner service options fuel int).
Proof.
  unfold buildInterfaceDocsFile.
  apply (stable_bind (fun fuel => buildInterfaceDocs banner service options fuel int));
    [apply buildInterfaceDocs_stable|].
  intros lines. apply stable_const.
Qed.

Lemma build_stable : stable (build banner service options).
Proof.
  unfold build.
  apply (stable_mapM (fun fuel => buildInterfaceDocsFile banner service options fuel)).
  apply buildInterfaceDocsFile_stable.
Qed.

End BuilderFacts.

(** ** Strings *)

Lemma append_assoc (a b c : string) : (a +++ b) +++ c = a +++ b +++ c.
Proof. induction a as [|x a IH]; simpl; [reflexivity | rewrite IH; reflexivity]. Qed.

(** ** The order of the parameters *)

Lemma insert_required (x : Param) (l : list Param) :
  isRequired x = true ->
  Js.insert (fun a b => ((if isRequired a then 0 else 1)
                         - (if isRequired b then 0 else 1))%Z) x l
  = x :: l.
Proof.
  intros Hx. destruct l as [|y l]; simpl; [reflexivity|].
  rewrite Hx. destruct (isRequired y); reflexivity.
Qed.

Lemma insert_optional (x : Param) (req opt : list Param) :
  isRequired x = false ->
  Forall (fun p => isRequired p = true) req ->
  Forall (fun p => isRequired p = false) opt ->
  Js.insert (fun a b => ((if isRequired a then 0 else 1)
                         - (if isRequired b then 0 else 1))%Z) x (req ++ opt)
  = req ++ x :: opt.
Proof.
  intros Hx Hreq Hopt. induction Hreq as [|r req Hr Hreq IH]; simpl.
  - destruct Hopt as [|y opt Hy Hopt]; simpl; [reflexivity|].
    rewrite Hx, Hy. reflexivity.
  - rewrite Hx, Hr. simpl. rewrite IH. reflexivity.
Qed.

Lemma sortParameters_partition (parameters : list Param) :
  sortParameters parameters
  = filter isRequired parameters ++ filter isOptional parameters.
Proof.
  unfold sortParameters.
  induction parameters as [|x l IH]; simpl; [reflexivity|].
  rewrite IH. unfold isOptional at 2. destruct (isRequired x) eqn:Hx; simpl.
  - apply insert_required, Hx.
  - apply insert_optional; [exact Hx| |]; apply Forall_forall; intros p Hp;
      apply filter_In in Hp; destruct Hp as [_ Hp].
    + exact Hp.
    + unfold isOptional in Hp. destruct (isRequired p); [discriminate | reflexivity].
Qed.

(** ** The call signature and the bullets *)

(** C6. In the call signature of every method the required parameters come
    before the optional ones and each group keeps its declaration order: the
    signature is rendered from the required parameters followed by the
    optional ones, each filtered out of the declared list in order.  Four
    parameters declared as optional, required, optional, required are
    rendered second, fourth, first, third. *)
Theorem signature_required_first `{Host} (method : Method) :
  sortParameters (method_parameters method)
  = filter isRequired (method_parameters method)
    ++ filter isOptional (method_parameters method)
  /\ buildMethodDefinition method
     = buildMethodName method
       +++ match method_parameters method with
           | [] => ""
           | _ :: _ =>
               "("
               +++ Js.join ", "
                     (map (fun param =>
                             buildParameterName param +++ ":"
                             +++ (if isRequired param then "" else " nil"))
                          (filter isRequired (method_parameters method)
                           ++ filter isOptional (method_parameters method)))
               +++ ")"
           end
  /\ (forall a b c d ta tb tc td da db dc dd,
        let optionalA := mkParam a ta false da in
        let requiredB := mkParam b tb true db in
        let optionalC := mkParam c tc false dc in
        let requiredD := mkParam d td true dd in
        sortParameters [optionalA; requiredB; optionalC; requiredD]
        = [requiredB; requiredD; optionalA; optionalC])
  /\ buildMethodDefinition (host := Sample.host) Fixtures.mixedMethod
     = "mixed(b:, d:, a: nil, c: nil)".
Proof.
  split; [apply sortParameters_partition|]. split; [|split].
  - unfold buildMethodDefinition. rewrite sortParameters_partition. reflexivity.
  - intros. rewrite sortParameters_partition. reflexivity.
  - reflexivity.
Qed.

(** ** The rendered document *)

Section Rendering.
Context {host : Host}.
Variable banner : Service -> option Options -> list string.
Variable service : Service.
Variable options : option Options.

Lemma buildToc_run (fuel : nat) (int : Interface) (ts : list Type_) (es : list Enum) :
  types service fuel int = Some ts ->
  enums service fuel int = Some es ->
  buildToc service fuel int = Some (tocLines (methods int) ts es).
Proof. intros Ets Ees. unfold buildToc. rewrite Ets, Ees. reflexivity. Qed.

Lemma buildInterfaceDocs_run (fuel : nat) (int : Interface)
    (ts : list Type_) (es : list Enum) :
  types service fuel int = Some ts ->
  enums service fuel int = Some es ->
  buildInterfaceDocs banner service options fuel int
  = Some (headerLines banner service options int (tocLines (methods int) ts es)
          ++ sectionLines service options (methods int) ts es).
Proof.
  intros Ets Ees. unfold buildInterfaceDocs.
  rewrite (buildToc_run _ _ _ _ Ets Ees), Ets, Ees. simpl.
  unfold headerLines, sectionLines, warning. flatten_app. reflexivity.
Qed.

Lemma whenNonEmpty_In {A : Type} (l : list A) (x : A) (lines : list string) :
  In x l -> whenNonEmpty l lines = lines.
Proof. destruct l; [contradiction | reflexivity]. Qed.

(** The documentation of a method, a type or an enum of the collections is
    a run of consecutive lines of the sections. *)
Lemma sectionLines_method (ms : list Method) (ts : list Type_) (es : list Enum)
    (method : Method) :
  In method ms ->
  exists before after,
    sectionLines service options ms ts es
    = before ++ buildMethodDocs service options method ++ after.
Proof.
  intros Hin. unfold sectionLines. rewrite (whenNonEmpty_In _ _ _ Hin).
  destruct (flat_map_segment (buildMethodDocs service options) ms method Hin)
    as (before & after & ->).
  exists ("## Methods" :: "" :: before),
         (after
          ++ whenNonEmpty ts
               ("## Types" :: "" :: flat_map (buildTypeDocs service options) ts)
          ++ whenNonEmpty es
               ("## Enums" :: "" :: flat_map (buildEnumDocs service options) es)).
  flatten_app. reflexivity.
Qed.

Lemma sectionLines_enum (ms : list Method) (ts : list Type_) (es : list Enum)
    (e : Enum) :
  In e es ->
  exists before after,
    sectionLines service options ms ts es
    = before ++ buildEnumDocs service options e ++ after.
Proof.
  intros Hin. unfold sectionLines. rewrite (whenNonEmpty_In es _ _ Hin).
  destruct (flat_map_segment (buildEnumDocs service options) es e Hin)
    as (before & after & ->).
  exists (whenNonEmpty ms
            ("## Methods" :: "" :: flat_map (buildMethodDocs service options) ms)
          ++ whenNonEmpty ts
               ("## Types" :: "" :: flat_map (buildTypeDocs service options) ts)
          ++ "## Enums" :: "" :: before), after.
  flatten_app. reflexivity.
Qed.

(** The enums that are found are enums of the registry, each once. *)
Lemma enumsOfRef_enumSet (ref : TypeRef) (found : list Enum) :
  enumSet service found -> enumSet service (enumsOfRef service ref found).
Proof.
  intros [Hnd Hreg]. unfold enumsOfRef. destruct (isPrimitive ref); [split; assumption|].
  destruct (getEnumByName service (typeName ref)) as [e|] eqn:Ee; [|split; assumption].
  split; [apply setAdd_NoDup, Hnd|].
  rewrite Forall_forall in Hreg |- *. intros x Hx. apply setAdd_In in Hx.
  destruct Hx as [Hx | ->]; [apply Hreg, Hx|].
  unfold registeredEnum. destruct (getEnumByName_Some _ _ _ Ee) as [_ ->]. exact Ee.
Qed.

Lemma enumsOfParameters_enumSet (params : list Param) (found : list Enum) :
  enumSet service found -> enumSet service (enumsOfParameters service params found).
Proof.
  unfold enumsOfParameters. revert found.
  induction params as [|p params IH]; intros found Hf; simpl; [exact Hf|].
  apply IH, enumsOfRef_enumSet, Hf.
Qed.

Lemma registeredEnum_NoDup_names (l : list Enum) :
  enumSet service l -> NoDup (map enum_name l).
Proof.
  intros [Hnd Hreg]. induction l as [|e l IH]; simpl; [constructor|].
  inversion Hreg as [|? ? He Hl]; subst. inversion Hnd as [|? ? Hnotin Hnd']; subst.
  constructor; [|apply IH; assumption].
  intros Hin. apply in_map_iff in Hin. destruct Hin as (u & Hname & Hu).
  rewrite Forall_forall in Hl. specialize (Hl u Hu).
  unfold registeredEnum in He, Hl. rewrite Hname in Hl.
  assert (u = e) by congruence. subst u. contradiction.
Qed.

Lemma enums_spec (fuel : nat) (int : Interface) (es : list Enum) :
  enums service fuel int = Some es ->
  Forall (fun e => In e (service_enums service)) es
  /\ NoDup (map enum_name es).
Proof.
  unfold enums. intros E. apply bind_Some in E. destruct E as (ts & _ & E).
  injection E as <-.
  set (byMethods := fold_left _ (interface_methods int) []).
  assert (Hm : enumSet service byMethods).
  { subst byMethods.
    assert (Hnil : enumSet service []) by (split; constructor).
    revert Hnil. generalize (@nil Enum).
    induction (interface_methods int) as [|m ms IH]; intros found Hf; simpl; [exact Hf|].
    apply IH. unfold enumsOfMethod.
    destruct (method_returnType m).
    - apply enumsOfRef_enumSet, enumsOfParameters_enumSet, Hf.
    - apply enumsOfParameters_enumSet, Hf. }
  assert (Ht : enumSet service
                 (fold_left (fun found type =>
                               enumsOfParameters service (type_properties type) found)
                            ts byMethods)).
  { revert Hm. generalize byMethods.
    induction ts as [|t ts IH]; intros found Hf; simpl; [exact Hf|].
    apply IH, enumsOfParameters_enumSet, Hf. }
  set (found := fold_left _ ts byMethods) in *.
  set (cmp := fun a b : Enum => localeCompare (enum_name a) (enum_name b)).
  assert (Hperm : Permutation (Js.sort cmp found) found) by apply sort_perm.
  assert (Hset : enumSet service (Js.sort cmp found)).
  { destruct Ht as [Hnd Hreg]. split.
    - apply (Permutation_NoDup (Permutation_sym Hperm)), Hnd.
    - rewrite Forall_forall in Hreg |- *. intros e He. apply Hreg.
      apply (Permutation_in _ Hperm), He. }
  split; [|apply registeredEnum_NoDup_names, Hset].
  destruct Hset as [_ Hreg]. rewrite Forall_forall in Hreg |- *.
  intros e He. apply (getEnumByName_Some _ _ _ (Hreg e He)).
Qed.
End Rendering.

(** C9. The bullet list of a method's parameters follows the declaration
    order of the model: after the heading, a blank line, the signature and a
    blank line, the bullet of the k-th declared parameter is the k-th line,
    whatever the required flags are; only the signature is rendered from the
    reordered list.  For parameters declared optional, required, optional,
    required the bullets read a, b, c, d and the signature b, d, a, c. *)
Theorem parameter_bullets_declaration_order `{Host}
    (service : Service) (options : option Options) (method : Method) :
  (exists after,
     buildMethodDocs service options method
     = ["### " +++ buildMethodName method; "";
        "`" +++ buildMethodDefinition method +++ "`"]
       ++ whenNonEmpty (method_parameters method) [""]
       ++ map (buildParameter service options) (method_parameters method)
       ++ after)
  /\ (forall k param,
        nth_error (method_parameters method) k = Some param ->
        nth_error (buildMethodDocs service options method) (4 + k)
        = Some (buildParameter service options param))
  /\ buildMethodDocs (host := Sample.host) Fixtures.widgetService None
       Fixtures.mixedMethod
     = ["### mixed"; ""; "`mixed(b:, d:, a: nil, c: nil)`"; "";
        "- `a` string (optional)"; "- `b` string";
        "- `c` string (optional)"; "- `d` string"; ""].
Proof.
  assert (Hshape : exists after,
     buildMethodDocs service options method
     = ["### " +++ buildMethodName method; "";
        "`" +++ buildMethodDefinition method +++ "`"]
       ++ whenNonEmpty (method_parameters method) [""]
       ++ map (buildParameter service options) (method_parameters method)
       ++ after).
  { unfold buildMethodDocs. eexists.
    destruct (method_parameters method) as [|p ps]; simpl; reflexivity. }
  split; [exact Hshape|]. split; [|reflexivity].
  intros k param Hk. destruct Hshape as (after & ->).
  destruct (method_parameters method) as [|p ps] eqn:Eps.
  - destruct k; discriminate.
  - change (nth_error (map (buildParameter service options) (p :: ps) ++ after) k
            = Some (buildParameter service options param)).
    rewrite nth_error_app1.
    + apply map_nth_error, Hk.
    + rewrite length_map. apply nth_error_Some. congruence.
Qed.

Lemma parameter_bullets_declaration_order_witness :
  nth_error (buildMethodDocs (host := Sample.host) Fixtures.widgetService None
               Fixtures.mixedMethod) (4 + 0)
  = Some "- `a` string (optional)".
Proof.
  exact (proj1 (proj2 (parameter_bullets_declaration_order (H := Sample.host)
                         Fixtures.widgetService None Fixtures.mixedMethod))
               0 (Sample.optional "a" (Sample.prim "string")) eq_refl).
Defined.

(** C10. The bullets of an enum are its literal values in declaration
    order, one bullet for each value: every enum that is rendered is an enum
    of the registry as it was declared (sorting moves whole enums only), its
    documentation is the heading, the qualified name and one bullet per
    value in order, and these lines stand together in the document. *)
Theorem enum_values_declaration_order `{Host}
    (banner : Service -> option Options -> list string)
    (service : Service) (options : option Options)
    (fuel : nat) (int : Interface) (es : list Enum) (e : Enum) :
  enums service fuel int = Some es ->
  In e es ->
  In e (service_enums service)
  /\ buildEnumDocs service options e
     = ["### " +++ pascal (enum_name e); "";
        "`" +++ buildTypeNamespace service options +++ "::"
            +++ pascal (enum_name e) +++ "`"]
       ++ whenNonEmpty (enum_values e) [""]
       ++ map (fun value => "- `" +++ value +++ "`") (enum_values e)
       ++ [""]
  /\ exists before after,
       buildInterfaceDocs banner service options fuel int
       = Some (before ++ buildEnumDocs service options e ++ after).
Proof.
  intros Ees Hin. split; [|split].
  - destruct (enums_spec _ _ _ _ Ees) as [Hreg _].
    rewrite Forall_forall in Hreg. apply Hreg, Hin.
  - unfold buildEnumDocs. destruct (enum_values e); reflexivity.
  - assert (Ets : exists ts, types service fuel int = Some ts).
    { unfold enums in Ees. apply bind_Some in Ees.
      destruct Ees as (ts & Ets & _). exists ts. exact Ets. }
    destruct Ets as (ts & Ets).
    rewrite (buildInterfaceDocs_run banner _ _ _ _ _ _ Ets Ees).
    destruct (sectionLines_enum service options (methods int) ts es e Hin)
      as (before & after & ->).
    exists (headerLines banner service options int (tocLines (methods int) ts es)
            ++ before), after.
    rewrite <- app_assoc. reflexivity.
Qed.

Lemma enum_values_declaration_order_witness :
  buildEnumDocs (host := Sample.host) Fixtures.widgetService None Fixtures.colour
  = ["### Colour"; ""; "`Example::Types::Colour`"; "";
     "- `red`"; "- `green`"; "- `blue`"; ""].
Proof.
  exact (proj1 (proj2 (enum_values_declaration_order (H := Sample.host)
                         Sample.banner Fixtures.widgetService None 2
                         Fixtures.widgetInterface [Fixtures.colour] Fixtures.colour
                         eq_refl (or_introl eq_refl)))).
Defined.

(** C5. For a method whose return type is an array of
    a named type, the line that starts with Returns: carries the link to
    the type followed by the array marker twice: once from the linked type
    name and once more from the line itself. *)
Theorem returns_line_array_marker_twice `{Host}
    (service : Service) (options : option Options)
    (method : Method) (returnType : ReturnType) :
  method_returnType method = Some returnType ->
  isPrimitive returnType = false ->
  isArray returnType = true ->
  In ("Returns: [" +++ buildTypeName service options returnType true
      +++ "](" +++ anchor (buildTypeName service options returnType true)
      +++ ")[][]")
     (buildMethodDocs service options method).
Proof.
  intros Eret Eprim Earr. unfold buildMethodDocs. rewrite Eret.
  apply in_or_app. right. apply in_or_app. right. apply in_or_app. left.
  right. left. unfold buildLinkedTypeName. rewrite Eprim, Earr.
  repeat (progress (simpl; rewrite ?append_assoc)). reflexivity.
Qed.

Lemma returns_line_array_marker_twice_witness :
  In "Returns: [Widget](#widget)[][]"
     (buildMethodDocs (host := Sample.host) Fixtures.widgetService None
        Fixtures.getWidgets).
Proof.
  exact (returns_line_array_marker_twice (H := Sample.host)
           Fixtures.widgetService None
           Fixtures.getWidgets (Sample.arrayOf "widget") eq_refl eq_refl eq_refl).
Defined.

(** C4. The anchor of a name is the name in lower case
    with its spaces turned into hyphens behind a hash sign, and the entry of
    a method in the table of contents points at the anchor of the text of the
    method's heading.  The entry of a type does not: its target is computed
    from the raw name of the type while its heading shows the name in Pascal
    case, so for the type user_profile the entry points at #user_profile
    and the heading UserProfile implies #userprofile. *)
Theorem toc_anchor_of_type_from_raw_name `{Host} (options : option Options) :
  pascal "user_profile" = "UserProfile" ->
  anchor "Get Widget" = "#get-widget"
  /\ buildToc Fixtures.profileService 1 Fixtures.profileInterface
     = Some ["- Methods";
             "  - [" +++ buildMethodName Fixtures.getProfile +++ "]("
             +++ anchor (buildMethodName Fixtures.getProfile) +++ ")";
             "- Types";
             "  - [UserProfile](#user_profile)"]
  /\ nth_error (buildMethodDocs Fixtures.profileService options Fixtures.getProfile) 0
     = Some ("### " +++ buildMethodName Fixtures.getProfile)
  /\ nth_error (buildTypeDocs Fixtures.profileService options Fixtures.userProfile) 0
     = Some "### UserProfile"
  /\ anchor "UserProfile" = "#userprofile"
  /\ anchor "user_profile" <> anchor "UserProfile".
Proof.
  intros Hpascal. split; [reflexivity|]. split; [|split; [|split; [|split]]].
  - unfold buildToc, types, enums. simpl. rewrite Hpascal. reflexivity.
  - reflexivity.
  - simpl. rewrite Hpascal. reflexivity.
  - reflexivity.
  - discriminate.
Qed.

Lemma toc_anchor_of_type_from_raw_name_witness :
  buildToc (host := Sample.host) Fixtures.profileService 1 Fixtures.profileInterface
  = Some ["- Methods"; "  - [get_profile](#get_profile)";
          "- Types"; "  - [UserProfile](#user_profile)"]
  /\ nth_error (buildTypeDocs (host := Sample.host) Fixtures.profileService None
                  Fixtures.userProfile) 0
     = Some "### UserProfile".
Proof.
  pose proof (toc_anchor_of_type_from_raw_name (H := Sample.host) None eq_refl)
    as (_ & Htoc & _ & Hheading & _).
  split; [exact Htoc | exact Hheading].
Defined.

(** ** Cyclic registries *)

Lemma cyclic_traverseType (fuel : nat) :
  traverseType fuel Fixtures.cyclicService Fixtures.typeA = None
  /\ traverseType fuel Fixtures.cyclicService Fixtures.typeB = None.
Proof.
  induction fuel as [|fuel [IHa IHb]]; [split; reflexivity|].
  split.
  - change (bind (bind (traverseType fuel Fixtures.cyclicService Fixtures.typeB)
                       (fun here => Some (here ++ [])))
                 (fun sub => Some (Fixtures.typeA :: sub)) = None).
    rewrite IHb. reflexivity.
  - change (bind (bind (traverseType fuel Fixtures.cyclicService Fixtures.typeA)
                       (fun here => Some (here ++ [])))
                 (fun sub => Some (Fixtures.typeB :: sub)) = None).
    rewrite IHa. reflexivity.
Qed.

Lemma cyclic_types `{Host} (fuel : nat) :
  types Fixtures.cyclicService fuel Fixtures.cyclicInterface = None.
Proof.
  unfold types, Fixtures.cyclicInterface. simpl.
  unfold typesOfMethod. simpl. unfold typesOfRef. simpl.
  rewrite (proj1 (cyclic_traverseType fuel)). reflexivity.
Qed.

(** C1. On the registry in which type a references type b and b references
    a, the reachable-types computation of an interface whose method returns
    a does not return, whatever the fuel: [traverseType] goes from a to b
    and back to a again, and no visited set stops it. *)
Lemma cyclic_types_never_return :
  ~ exists fuel ts,
      types (host := Sample.host) Fixtures.cyclicService fuel
        Fixtures.cyclicInterface = Some ts.
Proof.
  intros (fuel & ts & E). rewrite cyclic_types in E. discriminate.
Qed.

(** ** The comparison of the sample host is a total preorder *)

Lemma ascii_compare_refl (a : ascii) : Ascii.compare a a = Eq.
Proof. unfold Ascii.compare. apply N.compare_refl. Qed.

Lemma ascii_compare_lt_trans (a b c : ascii) :
  Ascii.compare a b = Lt -> Ascii.compare b c = Lt -> Ascii.compare a c = Lt.
Proof.
  unfold Ascii.compare. rewrite !N.compare_lt_iff. apply N.lt_trans.
Qed.

Lemma string_compare_refl (a : string) : String.compare a a = Eq.
Proof.
  induction a as [|x a IH]; simpl; [reflexivity|].
  rewrite ascii_compare_refl. exact IH.
Qed.

Lemma string_compare_lt_trans (a : string) :
  forall b c, String.compare a b = Lt -> String.compare b c = Lt ->
              String.compare a c = Lt.
Proof.
  induction a as [|x a IH]; intros [|y b] [|z c]; simpl; try congruence.
  destruct (Ascii.compare x y) eqn:Exy; try discriminate;
    destruct (Ascii.compare y z) eqn:Eyz; try discriminate; intros Hab Hbc.
  - apply Ascii.compare_eq_iff in Exy, Eyz. subst.
    rewrite ascii_compare_refl. apply (IH _ _ Hab Hbc).
  - apply Ascii.compare_eq_iff in Exy. subst. rewrite Eyz. reflexivity.
  - apply Ascii.compare_eq_iff in Eyz. subst. rewrite Exy. reflexivity.
  - rewrite (ascii_compare_lt_trans _ _ _ Exy Eyz). reflexivity.
Qed.

Lemma string_compare_le_trans (a b c : string) :
  String.compare a b <> Gt -> String.compare b c <> Gt -> String.compare a c <> Gt.
Proof.
  destruct (String.compare a b) eqn:Eab; [| |congruence];
    destruct (String.compare b c) eqn:Ebc; try congruence; intros _ _.
  - apply String.compare_eq_iff in Eab, Ebc. subst.
    rewrite string_compare_refl. discriminate.
  - apply String.compare_eq_iff in Eab. subst. rewrite Ebc. discriminate.
  - apply String.compare_eq_iff in Ebc. subst. rewrite Eab. discriminate.
  - rewrite (string_compare_lt_trans _ _ _ Eab Ebc). discriminate.
Qed.

Lemma signOf_le (c : comparison) : (Sample.signOf c <= 0)%Z <-> c <> Gt.
Proof. destruct c; simpl; split; intros; try lia; congruence. Qed.

Lemma rootCompare_total (a b : string) :
  (Sample.rootCompare a b <= 0 \/ Sample.rootCompare b a <= 0)%Z.
Proof.
  unfold Sample.rootCompare.
  rewrite (String.compare_antisym (Js.mapChars Js.lowerChar a)).
  rewrite (String.compare_antisym (Js.mapChars Sample.swapCase a)).
  destruct (String.compare (Js.mapChars Js.lowerChar b) (Js.mapChars Js.lowerChar a));
    simpl; try lia.
  destruct (String.compare (Js.mapChars Sample.swapCase b)
                           (Js.mapChars Sample.swapCase a)); simpl; lia.
Qed.

Lemma rootCompare_trans (a b c : string) :
  (Sample.rootCompare a b <= 0 -> Sample.rootCompare b c <= 0 ->
   Sample.rootCompare a c <= 0)%Z.
Proof.
  unfold Sample.rootCompare.
  set (la := Js.mapChars Js.lowerChar a). set (lb := Js.mapChars Js.lowerChar b).
  set (lc := Js.mapChars Js.lowerChar c).
  destruct (String.compare la lb) eqn:Eab; [| |simpl; lia];
    destruct (String.compare lb lc) eqn:Ebc; try (simpl; lia).
  - apply String.compare_eq_iff in Eab, Ebc.
    replace lc with la by congruence. rewrite string_compare_refl.
    rewrite !signOf_le. apply string_compare_le_trans.
  - apply String.compare_eq_iff in Eab. rewrite Eab, Ebc. simpl. lia.
  - apply String.compare_eq_iff in Ebc. rewrite <- Ebc, Eab. simpl. lia.
  - rewrite (string_compare_lt_trans _ _ _ Eab Ebc). simpl. lia.
Qed.

Lemma ascending_strict `{Host} {A : Type} (key : A -> string) (l : list A) :
  (forall a b, localeCompare a b = 0%Z -> a = b) ->
  ascendingBy key l -> NoDup (map key l) -> strictlyAscendingBy key l.
Proof.
  intros Hsep. unfold ascendingBy, strictlyAscendingBy.
  induction 1 as [|a l Hl IH Ha]; simpl; intros Hnd; [constructor|].
  inversion Hnd as [|? ? Hnotin Hnd']; subst.
  constructor; [apply IH, Hnd'|].
  rewrite Forall_forall in Ha |- *. intros b Hb. specialize (Ha b Hb).
  assert (localeCompare (key a) (key b) <> 0%Z); [|lia].
  intros E. apply Hsep in E. apply Hnotin. rewrite E. apply in_map, Hb.
Qed.

Lemma swapCase_involutive (c : ascii) : Sample.swapCase (Sample.swapCase c) = c.
Proof. destruct c as [[] [] [] [] [] [] [] []]; reflexivity. Qed.

Lemma rootCompare_separates (a b : string) :
  Sample.rootCompare a b = 0%Z -> a = b.
Proof.
  unfold Sample.rootCompare.
  destruct (String.compare (Js.mapChars Js.lowerChar a) (Js.mapChars Js.lowerChar b));
    simpl; try discriminate.
  destruct (String.compare (Js.mapChars Sample.swapCase a)
                           (Js.mapChars Sample.swapCase b)) eqn:E;
    simpl; try discriminate.
  intros _. apply String.compare_eq_iff in E. revert b E.
  induction a as [|x a IH]; intros [|y b]; simpl; try discriminate; [reflexivity|].
  intros E. injection E as Exy E. f_equal; [|apply IH, E].
  rewrite <- (swapCase_involutive x), Exy. apply swapCase_involutive.
Qed.

(** C3, against the ordinal order. The methods getWidgetZones and getWidgets are put
    in the order getWidgets, getWidgetZones by the comparison of the host,
    which lets s come before Z; by code units Z comes before s, so the list
    is not in ascending ordinal order. *)
Lemma methods_not_in_ordinal_order :
  map method_name (methods (host := Sample.host) Fixtures.widgetInterface)
  = ["getWidgets"; "getWidgetZones"]
  /\ ~ ordinalAscending
         (map method_name (methods (host := Sample.host) Fixtures.widgetInterface)).
Proof.
  split; [reflexivity|].
  intros Hsorted. inversion Hsorted as [|? ? _ Hhd]; subst.
  inversion Hhd as [|? ? Hlt _]; subst. discriminate.
Qed.

(** C3. When the comparison of the host is a total preorder, the
    methods of an interface, its reachable types and its reachable enums are
    each put in ascending order of their raw names under that comparison
    (the locale-sensitive localeCompare, not strictly: names it holds equal
    keep their order), and the table of contents and the sections are
    rendered from these same three lists. *)
Theorem collections_ascending_by_localeCompare `{Host}
    (banner : Service -> option Options -> list string)
    (service : Service) (options : option Options)
    (fuel : nat) (int : Interface) (ts : list Type_) (es : list Enum) :
  (forall a b, (localeCompare a b <= 0 \/ localeCompare b a <= 0)%Z) ->
  (forall a b c,
     (localeCompare a b <= 0 -> localeCompare b c <= 0 -> localeCompare a c <= 0)%Z) ->
  types service fuel int = Some ts ->
  enums service fuel int = Some es ->
  ascendingBy method_name (methods int)
  /\ Permutation (methods int) (interface_methods int)
  /\ ascendingBy type_name ts
  /\ ascendingBy enum_name es
  /\ ((forall a b, localeCompare a b = 0%Z -> a = b) ->
      (NoDup (map method_name (interface_methods int)) ->
       strictlyAscendingBy method_name (methods int))
      /\ strictlyAscendingBy type_name ts
      /\ strictlyAscendingBy enum_name es)
  /\ buildToc service fuel int = Some (tocLines (methods int) ts es)
  /\ buildInterfaceDocs banner service options fuel int
     = Some (headerLines banner service options int (tocLines (methods int) ts es)
             ++ sectionLines service options (methods int) ts es).
Proof.
  intros Htotal Htrans Ets Ees.
  assert (Hsorted : forall (A : Type) (key : A -> string) (l : list A),
             ascendingBy key
               (Js.sort (fun a b => localeCompare (key a) (key b)) l)).
  { intros A key l. unfold ascendingBy.
    apply (sort_sorted (fun a b => localeCompare (key a) (key b))).
    - intros a b. apply Htotal.
    - intros a b c. apply Htrans. }
  assert (Hts : ascendingBy type_name ts).
  { pose proof Ets as E. unfold types in E. apply bind_Some in E.
    destruct E as (found & _ & E). injection E as <-. apply Hsorted. }
  assert (Hes : ascendingBy enum_name es).
  { pose proof Ees as E. unfold enums in E. apply bind_Some in E.
    destruct E as (reachable & _ & E). injection E as <-. apply Hsorted. }
  split; [apply Hsorted|]. split; [apply methods_perm|].
  split; [exact Hts|]. split; [exact Hes|]. split; [|split].
  - intros Hsep. split; [|split].
    + intros Hnd. apply ascending_strict; [exact Hsep | apply Hsorted|].
      apply (Permutation_NoDup
               (Permutation_map method_name (Permutation_sym (methods_perm int)))), Hnd.
    + apply ascending_strict; [exact Hsep | exact Hts|].
      apply (types_spec _ _ _ _ Ets).
    + apply ascending_strict; [exact Hsep | exact Hes|].
      apply (enums_spec _ _ _ _ Ees).
  - apply buildToc_run; assumption.
  - apply buildInterfaceDocs_run; assumption.
Qed.

Lemma collections_ascending_by_localeCompare_witness :
  strictlyAscendingBy (H := Sample.host) method_name
    (methods (host := Sample.host) Fixtures.widgetInterface)
  /\ strictlyAscendingBy (H := Sample.host) type_name [Fixtures.part; Fixtures.widget]
  /\ strictlyAscendingBy (H := Sample.host) enum_name [Fixtures.colour].
Proof.
  pose proof (collections_ascending_by_localeCompare (H := Sample.host)
                Sample.banner Fixtures.widgetService None 2
                Fixtures.widgetInterface [Fixtures.part; Fixtures.widget]
                [Fixtures.colour] rootCompare_total rootCompare_trans
                eq_refl eq_refl) as (_ & _ & _ & _ & Hstrict & _).
  destruct (Hstrict rootCompare_separates) as (Hm & Ht & He).
  split; [apply Hm | split; [exact Ht | exact He]].
  repeat constructor; simpl; intuition discriminate.
Defined.

(** ** Dangling references *)

(** C2, the line of a dangling parameter. The parameter gadget names a type that is in
    neither registry, and its line carries a link to the anchor of the type
    name, not the bare name. *)
Lemma dangling_parameter_rendered_as_link :
  getTypeByName Fixtures.gadgetService "gadget" = None
  /\ getEnumByName Fixtures.gadgetService "gadget" = None
  /\ buildTypeName (host := Sample.host) Fixtures.gadgetService None
       (param_type Fixtures.gadgetParam) true = "Gadget"
  /\ buildParameter (host := Sample.host) Fixtures.gadgetService None
       Fixtures.gadgetParam = "- `gadget` [Gadget](#gadget)"
  /\ buildParameter (host := Sample.host) Fixtures.gadgetService None
       Fixtures.gadgetParam <> "- `gadget` Gadget".
Proof. repeat split; try reflexivity. discriminate. Qed.

Lemma buildMethodDocs_parameter `{Host} (service : Service)
    (options : option Options) (method : Method) (param : Param) :
  In param (method_parameters method) ->
  In (buildParameter service options param) (buildMethodDocs service options method).
Proof.
  intros Hin. unfold buildMethodDocs.
  apply in_or_app. right. apply in_or_app. left.
  rewrite (whenNonEmpty_In _ _ _ Hin). right. apply in_map, Hin.
Qed.

(** ** The generated files *)

Lemma Forall2_In_l {A B : Type} (P : A -> B -> Prop) (l : list A) (r : list B) (x : A) :
  Forall2 P l r -> In x l -> exists y, P x y.
Proof.
  induction 1 as [|a b l r Hab _ IH]; simpl; [contradiction|].
  intros [<- | Hin]; [exists b; exact Hab | apply IH, Hin].
Qed.

Lemma Forall2_join {A B C : Type} (P : A -> B -> Prop) (Q : A -> C -> Prop)
    (l : list A) (r1 : list B) (r2 : list C) :
  Forall2 P l r1 -> Forall2 Q l r2 ->
  Forall2 (fun y z => exists x, P x y /\ Q x z) r1 r2.
Proof.
  intros H1. revert r2. induction H1 as [|a b l r1 Hab _ IH]; intros r2 H2;
    inversion H2 as [|? c ? r2' Hac H2']; subst; constructor.
  - exists a. auto.
  - apply IH, H2'.
Qed.

Lemma Forall2_eq {A : Type} (l r : list A) : Forall2 eq l r -> l = r.
Proof. induction 1; congruence. Qed.

Section Files.
Context {host : Host}.
Variable service : Service.
Variable options : option Options.

(** The banner enters a document as its first lines and nowhere else. *)
Lemma buildInterfaceDocs_body (banner : Service -> option Options -> list string)
    (fuel : nat) (int : Interface) (lines : list string) :
  buildInterfaceDocs banner service options fuel int = Some lines ->
  exists body,
    lines = warning banner service options ++ body
    /\ forall banner',
         buildInterfaceDocs banner' service options fuel int
         = Some (warning banner' service options ++ body).
Proof.
  intros E. pose proof E as E'. unfold buildInterfaceDocs in E'.
  apply bind_Some in E'. destruct E' as (ts & Ets & E').
  apply bind_Some in E'. destruct E' as (es & Ees & _).
  rewrite (buildInterfaceDocs_run banner _ _ _ _ _ _ Ets Ees) in E.
  injection E as <-.
  exists ([""; "# " +++ title (buildInterfaceName int); ""]
          ++ tocLines (methods int) ts es ++ [""]
          ++ sectionLines service options (methods int) ts es).
  split.
  - unfold headerLines, warning. flatten_app. reflexivity.
  - intros banner'. rewrite (buildInterfaceDocs_run banner' _ _ _ _ _ _ Ets Ees).
    unfold headerLines, warning. flatten_app. reflexivity.
Qed.

Lemma buildInterfaceDocsFile_Some (banner : Service -> option Options -> list string)
    (fuel : nat) (int : Interface) (file : File) :
  buildInterfaceDocsFile banner service options fuel int = Some file <->
  exists lines,
    buildInterfaceDocs banner service options fuel int = Some lines
    /\ file = {| path := buildInterfaceDocsFilepath int service options;
                 contents := from lines |}.
Proof.
  unfold buildInterfaceDocsFile. rewrite bind_Some.
  split; intros (lines & E & E'); exists lines; split; congruence.
Qed.
End Files.

(** C7. The service with the two types that reference each other has one
    interface, whose method returns one of them, and the engine returns no
    list of files for it, whatever the fuel: the document of the interface
    waits for the reachable types, whose traversal does not return. *)
Lemma cyclic_service_yields_no_documents :
  length (service_interfaces Fixtures.cyclicService) = 1
  /\ ~ exists fuel files,
         generateDocs (H := Sample.host) Sample.banner fuel
           Fixtures.cyclicService None = Some files.
Proof.
  split; [reflexivity|]. intros (fuel & files & E).
  unfold generateDocs, build in E. simpl in E.
  unfold buildInterfaceDocsFile, buildInterfaceDocs in E.
  rewrite cyclic_types in E. discriminate.
Qed.

(** C8. The output is a function of the service and the options alone, up
    to the banner: if the engine returns under one banner it returns under
    any other with the same fuel; two runs that return, under any banners
    and any fuel, give files with the same paths, pairwise, whose contents
    are the same lines behind the respective banner block; and when the
    banners agree the two outputs are equal. *)
Theorem generateDocs_deterministic `{Host}
    (banner1 banner2 : Service -> option Options -> list string)
    (service : Service) (options : option Options)
    (fuel1 : nat) (files1 : list File) :
  generateDocs banner1 fuel1 service options = Some files1 ->
  (exists files2, generateDocs banner2 fuel1 service options = Some files2)
  /\ forall fuel2 files2,
       generateDocs banner2 fuel2 service options = Some files2 ->
       Forall2 (fun file1 file2 =>
                  path file1 = path file2
                  /\ exists body,
                       contents file1
                       = from (warning banner1 service options ++ body)
                       /\ contents file2
                          = from (warning banner2 service options ++ body))
               files1 files2
       /\ (banner1 service options = banner2 service options -> files1 = files2).
Proof.
  unfold generateDocs, build. intros E1. split.
  - apply mapM_total. intros int Hin.
    destruct (Forall2_In_l _ _ _ _ (mapM_length _ _ _ E1) Hin) as (file & Hfile).
    apply buildInterfaceDocsFile_Some in Hfile. destruct Hfile as (lines & Elines & _).
    destruct (buildInterfaceDocs_body _ _ _ _ _ _ Elines) as (body & _ & Hbody).
    eexists. apply buildInterfaceDocsFile_Some. eexists. split; [apply Hbody | reflexivity].
  - intros fuel2 files2 E2.
    pose proof (build_stable banner1 service options _ _ _
                  (Nat.le_max_l fuel1 fuel2) E1) as S1.
    pose proof (build_stable banner2 service options _ _ _
                  (Nat.le_max_r fuel1 fuel2) E2) as S2.
    unfold build in S1, S2.
    pose proof (Forall2_join _ _ _ _ _ (mapM_length _ _ _ S1) (mapM_length _ _ _ S2))
      as Hjoin.
    assert (Hrel : Forall2 (fun file1 file2 =>
                  path file1 = path file2
                  /\ exists body,
                       contents file1
                       = from (warning banner1 service options ++ body)
                       /\ contents file2
                          = from (warning banner2 service options ++ body))
               files1 files2).
    { eapply Forall2_impl; [|exact Hjoin]. intros file1 file2 (int & F1 & F2).
      apply buildInterfaceDocsFile_Some in F1, F2.
      destruct F1 as (lines1 & L1 & ->). destruct F2 as (lines2 & L2 & ->). simpl.
      split; [reflexivity|].
      destruct (buildInterfaceDocs_body _ _ _ _ _ _ L1) as (body & -> & Hbody).
      rewrite (Hbody banner2) in L2. injection L2 as <-.
      exists body. auto. }
    split; [exact Hrel|].
    intros Hbanner. apply Forall2_eq. eapply Forall2_impl; [|exact Hrel].
    intros [path1 contents1] [path2 contents2] (Hpath & body & C1 & C2).
    simpl in *. unfold warning in C1, C2. rewrite Hbanner in C1. congruence.
Qed.

Lemma generateDocs_deterministic_witness :
  exists files2,
    generateDocs (H := Sample.host) Fixtures.otherBanner 2
      Fixtures.widgetService None = Some files2.
Proof.
  eapply proj1.
  eapply (generateDocs_deterministic (H := Sample.host) Sample.banner
            Fixtures.otherBanner Fixtures.widgetService None 2).
  vm_compute. reflexivity.
Defined.

(** ** When the traversal returns *)

Section Termination.
Variable service : Service.

Lemma traverseProperties_None (rec : Type_ -> option (list Type_))
    (props : list Property) :
  traverseProperties rec service props = None ->
  exists prop u,
    In prop props /\ resolves service (param_type prop) u /\ rec u = None.
Proof.
  induction props as [|p props IH]; simpl; [discriminate|].
  destruct (isPrimitive (param_type p)) eqn:Eprim; simpl.
  - destruct (traverseProperties rec service props) eqn:E; [discriminate|].
    intros _. destruct (IH eq_refl) as (prop & u & Hin & Hres & Hu).
    exists prop, u. auto.
  - destruct (getTypeByName service (typeName (param_type p))) as [v|] eqn:Ev; simpl.
    + destruct (rec v) as [r|] eqn:Er; simpl.
      * destruct (traverseProperties rec service props) eqn:E; [discriminate|].
        intros _. destruct (IH eq_refl) as (prop & u & Hin & Hres & Hu).
        exists prop, u. auto.
      * intros _. exists p, v. repeat split; auto.
    + destruct (traverseProperties rec service props) eqn:E; [discriminate|].
      intros _. destruct (IH eq_refl) as (prop & u & Hin & Hres & Hu).
      exists prop, u. auto.
Qed.

(** A traversal that runs out of fuel has gone down a chain of references
    as long as the fuel. *)
Lemma traverseType_None_path (fuel : nat) :
  forall type, traverseType fuel service type = None ->
  exists chain, length chain = fuel /\ isPath service type chain.
Proof.
  induction fuel as [|fuel IH]; intros type E.
  - exists []. split; [reflexivity | exact I].
  - simpl in E.
    destruct (traverseProperties (traverseType fuel service) service
                (type_properties type)) as [sub|] eqn:Eprops; [discriminate|].
    destruct (traverseProperties_None _ _ Eprops) as (prop & u & Hin & Hres & Hu).
    destruct (IH u Hu) as (chain & Hlen & Hpath).
    exists (u :: chain). split; [simpl; congruence|].
    split; [exists prop; auto | exact Hpath].
Qed.

Lemma isPath_registry (chain : list Type_) :
  forall type, isPath service type chain ->
  incl chain (service_types service).
Proof.
  induction chain as [|u chain IH]; intros type Hpath x Hx; [contradiction|].
  destruct Hpath as [(prop & _ & _ & Hu) Hrest].
  destruct Hx as [<- | Hx].
  - apply (getTypeByName_Some _ _ _ Hu).
  - apply (IH u Hrest x Hx).
Qed.

Lemma isPath_app (front : list Type_) :
  forall type x back,
    isPath service type (front ++ x :: back) ->
    reachesType service type x /\ isPath service x back.
Proof.
  induction front as [|u front IH]; simpl; intros type x back Hpath.
  - destruct Hpath as [(prop & Hin & Hres) Hback]. split; [|exact Hback].
    econstructor; [exact Hin | exact Hres | constructor].
  - destruct Hpath as [(prop & Hin & Hres) Hrest].
    destruct (IH _ _ _ Hrest) as [Hreach Hback]. split; [|exact Hback].
    econstructor; eassumption.
Qed.

Lemma isPath_back_onCycle (middle : list Type_) (x : Type_) (back : list Type_) :
  isPath service x (middle ++ x :: back) -> onCycle service x.
Proof.
  destruct middle as [|u middle]; simpl.
  - intros [(prop & Hin & Hres) _]. exists prop, x.
    split; [exact Hin | split; [exact Hres | constructor]].
  - intros [(prop & Hin & Hres) Hrest].
    exists prop, u. split; [exact Hin|]. split; [exact Hres|].
    apply (isPath_app _ _ _ _ Hrest).
Qed.

Lemma repeated_element (l : list Type_) :
  ~ NoDup l -> exists x front middle back, l = front ++ x :: middle ++ x :: back.
Proof.
  induction l as [|a l IH]; intros Hdup.
  - destruct Hdup. constructor.
  - destruct (in_dec Type_eq_dec a l) as [Hin | Hout].
    + apply in_split in Hin. destruct Hin as (middle & back & ->).
      exists a, [], middle, back. reflexivity.
    + destruct IH as (x & front & middle & back & ->).
      * intros Hnd. apply Hdup. constructor; assumption.
      * exists x, (a :: front), middle, back. reflexivity.
Qed.

(** A chain longer than the registry passes twice through one type, which
    therefore lies on a cycle. *)
Lemma long_path_reaches_cycle (type : Type_) (chain : list Type_) :
  isPath service type chain ->
  length (service_types service) < length chain ->
  exists x, reachesType service type x /\ onCycle service x.
Proof.
  intros Hpath Hlong.
  destruct (repeated_element chain) as (x & front & middle & back & ->).
  - intros Hnd.
    pose proof (NoDup_incl_length Hnd (isPath_registry _ _ Hpath)). lia.
  - destruct (isPath_app _ _ _ _ Hpath) as [Hreach Hrest].
    exists x. split; [exact Hreach|]. apply (isPath_back_onCycle _ _ _ Hrest).
Qed.

Lemma traverseType_reached (fuel : nat) (type u : Type_) (r : list Type_) :
  traverseType fuel service type = Some r ->
  reachesType service type u ->
  exists fuel' r', traverseType fuel' service u = Some r'.
Proof.
  intros E Hreach. revert fuel r E.
  induction Hreach as [t | t prop u v Hin Hres _ IH]; intros fuel r E.
  - exists fuel, r. exact E.
  - destruct fuel as [|fuel]; [discriminate|]. simpl in E.
    apply bind_Some in E. destruct E as (sub & Esub & _).
    destruct (traverseProperties_calls _ _ _ _ _ _ Esub Hin Hres) as (ru & Eu).
    apply (IH _ _ Eu).
Qed.

Lemma acyclicFrom_terminates (type : Type_) :
  acyclicFrom service type ->
  exists r, traverseType (S (length (service_types service))) service type = Some r.
Proof.
  intros Hacyclic.
  destruct (traverseType (S (length (service_types service))) service type)
    as [r|] eqn:E; [exists r; reflexivity|].
  destruct (traverseType_None_path _ _ E) as (chain & Hlen & Hpath).
  destruct (long_path_reaches_cycle type chain Hpath) as (x & Hreach & Hcycle);
    [lia|].
  destruct (Hacyclic x Hreach Hcycle).
Qed.

(** X1. The traversal of a type returns, given enough fuel, exactly when no
    type reached from it lies on a reference cycle; the fuel that is then
    enough is one more than the number of types of the registry. *)
Theorem traverseType_returns_iff_acyclic (type : Type_) :
  ((exists fuel r, traverseType fuel service type = Some r)
   <-> acyclicFrom service type)
  /\ (acyclicFrom service type ->
      exists r,
        traverseType (S (length (service_types service))) service type = Some r).
Proof.
  split; [split|apply acyclicFrom_terminates].
  - intros (fuel & r & E) u Hreach Hcycle.
    destruct (traverseType_reached _ _ _ _ E Hreach) as (fuel' & r' & E').
    rewrite (traverseType_onCycle service fuel' u Hcycle) in E'. discriminate.
  - intros Hacyclic. destruct (acyclicFrom_terminates type Hacyclic) as (r & E).
    eexists _, r. exact E.
Qed.
End Termination.

Lemma traverseType_returns_iff_acyclic_witness :
  exists r,
    traverseType (S (length (service_types Fixtures.widgetService)))
      Fixtures.widgetService Fixtures.widget = Some r.
Proof.
  destruct (traverseType_returns_iff_acyclic Fixtures.widgetService Fixtures.widget)
    as [Hiff Henough].
  apply Henough, Hiff. exists 2. eexists. reflexivity.
Defined.

Section TypesTermination.
Variable service : Service.

Lemma typesOfRef_returns (fuel : nat) (ref : TypeRef) (found : list Type_) :
  (exists found', typesOfRef service fuel ref found = Some found')
  <-> traversable service fuel ref.
Proof.
  unfold typesOfRef, traversable, resolves. split.
  - intros (found' & E) root [Eprim Eroot]. rewrite Eprim, Eroot in E.
    apply bind_Some in E. destruct E as (r & Er & _). exists r. exact Er.
  - intros Hret. destruct (isPrimitive ref); [eexists; reflexivity|].
    destruct (getTypeByName service (typeName ref)) as [root|];
      [|eexists; reflexivity].
    destruct (Hret root (conj eq_refl eq_refl)) as (r & ->). eexists; reflexivity.
Qed.

Lemma typesOfParameters_returns (fuel : nat) (params : list Param) :
  forall found,
    (exists found', typesOfParameters service fuel params found = Some found')
    <-> (forall param, In param params -> traversable service fuel (param_type param)).
Proof.
  induction params as [|p params IH]; intros found; simpl.
  - split; [intros _ param [] | intros _; eexists; reflexivity].
  - split.
    + intros (found' & E) param Hin. apply bind_Some in E.
      destruct E as (f & Ef & E). destruct Hin as [<- | Hin].
      * apply (typesOfRef_returns fuel (param_type p) found). eexists; exact Ef.
      * apply (proj1 (IH f)); [eexists; exact E | exact Hin].
    + intros Hall.
      destruct (proj2 (typesOfRef_returns fuel (param_type p) found)
                  (Hall p (or_introl eq_refl))) as (f & ->). simpl.
      apply IH. intros param Hin. apply Hall. right. exact Hin.
Qed.

Lemma typesOfMethod_returns (fuel : nat) (method : Method) (found : list Type_) :
  (exists found', typesOfMethod service fuel method found = Some found')
  <-> ((forall param, In param (method_parameters method) ->
                      traversable service fuel (param_type param))
       /\ (forall ref, method_returnType method = Some ref ->
                       traversable service fuel ref)).
Proof.
  unfold typesOfMethod. split.
  - intros (found' & E). apply bind_Some in E. destruct E as (f & Ef & E). split.
    + apply (proj1 (typesOfParameters_returns fuel _ found)). eexists; exact Ef.
    + intros ref Eref. rewrite Eref in E.
      apply (typesOfRef_returns fuel ref f). eexists; exact E.
  - intros [Hparams Hret].
    destruct (proj2 (typesOfParameters_returns fuel _ found) Hparams) as (f & ->).
    simpl. destruct (method_returnType method) as [ref|]; [|eexists; reflexivity].
    apply typesOfRef_returns, Hret. reflexivity.
Qed.

Lemma typesOfMethods_returns (fuel : nat) (ms : list Method) :
  forall found,
    (exists found', typesOfMethods service fuel ms found = Some found')
    <-> (forall method, In method ms ->
           (forall param, In param (method_parameters method) ->
                          traversable service fuel (param_type param))
           /\ (forall ref, method_returnType method = Some ref ->
                           traversable service fuel ref)).
Proof.
  induction ms as [|m ms IH]; intros found; simpl.
  - split; [intros _ method [] | intros _; eexists; reflexivity].
  - split.
    + intros (found' & E) method Hin. apply bind_Some in E.
      destruct E as (f & Ef & E). destruct Hin as [<- | Hin].
      * apply (typesOfMethod_returns fuel m found). eexists; exact Ef.
      * apply (proj1 (IH f)); [eexists; exact E | exact Hin].
    + intros Hall.
      destruct (proj2 (typesOfMethod_returns fuel m found)
                  (Hall m (or_introl eq_refl))) as (f & ->). simpl.
      apply IH. intros method Hin. apply Hall. right. exact Hin.
Qed.

Lemma types_returns `{Host} (fuel : nat) (int : Interface) :
  (exists ts, types service fuel int = Some ts)
  <-> (forall ref, refOfInterface int ref -> traversable service fuel ref).
Proof.
  unfold types. split.
  - intros (ts & E) ref (method & Hm & Href). apply bind_Some in E.
    destruct E as (found & Ef & _).
    destruct (proj1 (typesOfMethods_returns fuel _ []) (ex_intro _ _ Ef) method Hm)
      as [Hparams Hret].
    destruct Href as [(param & Hp & <-) | Eref]; [apply Hparams, Hp | apply Hret, Eref].
  - intros Hall.
    destruct (proj2 (typesOfMethods_returns fuel (interface_methods int) []))
      as (found & ->); [|eexists; reflexivity].
    intros method Hm. split.
    + intros param Hp. apply Hall. exists method. split; [exact Hm|].
      left. exists param. auto.
    + intros ref Eref. apply Hall. exists method. auto.
Qed.

Lemma types_acyclic_terminates `{Host} (int : Interface) :
  (forall type, reachableType service int type -> ~ onCycle service type) ->
  exists ts, types service (S (length (service_types service))) int = Some ts.
Proof.
  intros Hacyclic. apply types_returns. intros ref Href root Hroot.
  apply acyclicFrom_terminates. intros u Hreach. apply Hacyclic.
  exists ref, root. auto.
Qed.
End TypesTermination.

Lemma types_Some_acyclic `{Host} (service : Service) (int : Interface)
    (fuel : nat) (ts : list Type_) :
  types service fuel int = Some ts ->
  forall type, reachableType service int type -> ~ onCycle service type.
Proof.
  intros E type (ref & root & Href & Hroot & Hreach) Hcycle.
  destruct (proj1 (types_returns service fuel int) (ex_intro _ _ E) ref Href
              root Hroot) as (r & Er).
  destruct (traverseType_reached _ _ _ _ _ Er Hreach) as (fuel' & r' & E').
  rewrite (traverseType_onCycle service fuel' type Hcycle) in E'. discriminate.
Qed.

(** X2. The reachable-types computation of an interface returns, given
    enough fuel, exactly when no type reachable from the interface lies on
    a reference cycle; one more than the number of types of the registry is
    then enough fuel.  A cycle among types that the interface does not
    reach does no harm. *)
Theorem types_return_iff_acyclic `{Host} (service : Service) (int : Interface) :
  ((exists fuel ts, types service fuel int = Some ts)
   <-> (forall type, reachableType service int type -> ~ onCycle service type))
  /\ ((forall type, reachableType service int type -> ~ onCycle service type) ->
      exists ts, types service (S (length (service_types service))) int = Some ts).
Proof.
  split; [split|apply types_acyclic_terminates].
  - intros (fuel & ts & E). apply (types_Some_acyclic _ _ _ _ E).
  - intros Hacyclic.
    destruct (types_acyclic_terminates service int Hacyclic) as (ts & E).
    eexists _, ts. exact E.
Qed.

Lemma types_return_iff_acyclic_witness :
  exists ts,
    types (host := Sample.host) Fixtures.widgetService
      (S (length (service_types Fixtures.widgetService)))
      Fixtures.widgetInterface = Some ts.
Proof.
  destruct (types_return_iff_acyclic (H := Sample.host) Fixtures.widgetService
              Fixtures.widgetInterface) as [Hiff Henough].
  apply Henough, Hiff. exists 2. eexists. reflexivity.
Defined.

Lemma mapM_returns {X Y : Type} (f : X -> option Y) (l : list X) :
  (exists r, mapM f l = Some r) <-> (forall x, In x l -> exists y, f x = Some y).
Proof.
  split; [|apply mapM_total].
  intros (r & E) x Hin. apply (Forall2_In_l _ _ _ _ (mapM_length _ _ _ E) Hin).
Qed.

Lemma buildInterfaceDocsFile_returns `{Host}
    (banner : Service -> option Options -> list string)
    (service : Service) (options : option Options) (fuel : nat) (int : Interface) :
  (exists file, buildInterfaceDocsFile banner service options fuel int = Some file)
  <-> (exists ts, types service fuel int = Some ts).
Proof.
  split.
  - intros (file & E). apply buildInterfaceDocsFile_Some in E.
    destruct E as (lines & E & _). unfold buildInterfaceDocs in E.
    apply bind_Some in E. destruct E as (ts & Ets & _). exists ts. exact Ets.
  - intros (ts & Ets).
    assert (Ees : exists es, enums service fuel int = Some es).
    { unfold enums. rewrite Ets. eexists; reflexivity. }
    destruct Ees as (es & Ees). eexists. apply buildInterfaceDocsFile_Some.
    eexists. split; [apply buildInterfaceDocs_run; eassumption | reflexivity].
Qed.

(** X3. The engine returns its files, given enough fuel, exactly when no
    interface of the service reaches a type that lies on a reference cycle;
    one more than the number of types of the registry is then enough fuel.
    A single interface that reaches a cycle leaves the whole service
    without output. *)
Theorem generateDocs_returns_iff_acyclic `{Host}
    (banner : Service -> option Options -> list string)
    (service : Service) (options : option Options) :
  ((exists fuel files, generateDocs banner fuel service options = Some files)
   <-> (forall int type,
          In int (service_interfaces service) ->
          reachableType service int type -> ~ onCycle service type))
  /\ ((forall int type,
         In int (service_interfaces service) ->
         reachableType service int type -> ~ onCycle service type) ->
      exists files,
        generateDocs banner (S (length (service_types service))) service options
        = Some files).
Proof.
  assert (Hback : (forall int type,
         In int (service_interfaces service) ->
         reachableType service int type -> ~ onCycle service type) ->
      exists files,
        generateDocs banner (S (length (service_types service))) service options
        = Some files).
  { intros Hacyclic. unfold generateDocs, build. apply mapM_returns.
    intros int Hin. apply buildInterfaceDocsFile_returns.
    apply types_acyclic_terminates. intros type. apply Hacyclic, Hin. }
  split; [split|exact Hback].
  - intros (fuel & files & E) int type Hin. unfold generateDocs, build in E.
    pose proof (proj1 (mapM_returns _ _) (ex_intro _ _ E) int Hin) as Hfile.
    apply buildInterfaceDocsFile_returns in Hfile. destruct Hfile as (ts & Ets).
    apply (types_Some_acyclic _ _ _ _ Ets).
  - intros Hacyclic. destruct (Hback Hacyclic) as (files & E).
    eexists _, files. exact E.
Qed.

Lemma generateDocs_returns_iff_acyclic_witness :
  exists files,
    generateDocs (H := Sample.host) Sample.banner
      (S (length (service_types Fixtures.widgetService)))
      Fixtures.widgetService None = Some files.
Proof.
  destruct (generateDocs_returns_iff_acyclic (H := Sample.host) Sample.banner
              Fixtures.widgetService None) as [Hiff Henough].
  apply Henough, Hiff. exists 2. eexists. vm_compute. reflexivity.
Defined.

(** ** The reachable enums of an interface *)

Section ReachableEnums.
Variable service : Service.

Lemma enumsOfRef_In (ref : TypeRef) (found : list Enum) (e : Enum) :
  In e (enumsOfRef service ref found)
  <-> In e found \/ resolvesEnum service ref e.
Proof.
  unfold enumsOfRef, resolvesEnum.
  destruct (isPrimitive ref).
  { split; [auto | intros [Hin | [Hp _]]; [exact Hin | discriminate]]. }
  destruct (getEnumByName service (typeName ref)) as [x|].
  - rewrite setAdd_In. split.
    + intros [Hin | ->]; [left; exact Hin | right; auto].
    + intros [Hin | [_ Ex]]; [left; exact Hin | right; congruence].
  - split; [auto | intros [Hin | [_ Ex]]; [exact Hin | discriminate]].
Qed.

Lemma enumsOfParameters_In (params : list Param) :
  forall found e,
    In e (enumsOfParameters service params found)
    <-> In e found
        \/ exists param, In param params
                         /\ resolvesEnum service (param_type param) e.
Proof.
  unfold enumsOfParameters.
  induction params as [|p params IH]; intros found e; simpl.
  - split; [auto | intros [Hin | (param & [] & _)]; exact Hin].
  - rewrite IH, enumsOfRef_In. split.
    + intros [[Hin | Hres] | (param & Hp & Hres)].
      * left; exact Hin.
      * right. exists p. auto.
      * right. exists param. auto.
    + intros [Hin | (param & [<- | Hp] & Hres)].
      * left; left; exact Hin.
      * left; right; exact Hres.
      * right. exists param. auto.
Qed.

Lemma enumsOfMethod_In (method : Method) (found : list Enum) (e : Enum) :
  In e (enumsOfMethod service method found)
  <-> In e found
      \/ exists ref,
           ((exists param, In param (method_parameters method)
                           /\ param_type param = ref)
            \/ method_returnType method = Some ref)
           /\ resolvesEnum service ref e.
Proof.
  unfold enumsOfMethod.
  destruct (method_returnType method) as [returnType|].
  - rewrite enumsOfRef_In, enumsOfParameters_In. split.
    + intros [[Hin | (param & Hp & Hres)] | Hres].
      * left; exact Hin.
      * right. exists (param_type param). split; [left; exists param; auto | exact Hres].
      * right. exists returnType. auto.
    + intros [Hin | (ref & [(param & Hp & <-) | Eref] & Hres)].
      * left; left; exact Hin.
      * left; right. exists param. auto.
      * right. injection Eref as <-. exact Hres.
  - rewrite enumsOfParameters_In. split.
    + intros [Hin | (param & Hp & Hres)].
      * left; exact Hin.
      * right. exists (param_type param). split; [left; exists param; auto | exact Hres].
    + intros [Hin | (ref & [(param & Hp & <-) | Eref] & Hres)].
      * left; exact Hin.
      * right. exists param. auto.
      * discriminate.
Qed.

Lemma enumsOfMethods_In (ms : list Method) :
  forall found e,
    In e (fold_left (fun found method => enumsOfMethod service method found) ms found)
    <-> In e found
        \/ exists ref, refOfInterface (mkInterface "" ms) ref
                       /\ resolvesEnum service ref e.
Proof.
  unfold refOfInterface. simpl.
  induction ms as [|m ms IH]; intros found e; simpl.
  - split; [auto | intros [Hin | (ref & (method & [] & _) & _)]; exact Hin].
  - rewrite IH, enumsOfMethod_In. split.
    + intros [[Hin | (ref & Href & Hres)] | (ref & (method & Hm & Href) & Hres)].
      * left; exact Hin.
      * right. exists ref. split; [exists m; auto | exact Hres].
      * right. exists ref. split; [exists method; auto | exact Hres].
    + intros [Hin | (ref & (method & [<- | Hm] & Href) & Hres)].
      * left; left; exact Hin.
      * left; right. exists ref. auto.
      * right. exists ref. split; [exists method; auto | exact Hres].
Qed.

Lemma enumsOfTypes_In (ts : list Type_) :
  forall found e,
    In e (fold_left (fun found type =>
                       enumsOfParameters service (type_properties type) found)
                    ts found)
    <-> In e found
        \/ exists type prop,
             In type ts /\ In prop (type_properties type)
             /\ resolvesEnum service (param_type prop) e.
Proof.
  induction ts as [|t ts IH]; intros found e; simpl.
  - split; [auto | intros [Hin | (type & prop & [] & _)]; exact Hin].
  - rewrite IH, enumsOfParameters_In. split.
    + intros [[Hin | (prop & Hp & Hres)] | (type & prop & Ht & Hp & Hres)].
      * left; exact Hin.
      * right. exists t, prop. auto.
      * right. exists type, prop. auto.
    + intros [Hin | (type & prop & [<- | Ht] & Hp & Hres)].
      * left; left; exact Hin.
      * left; right. exists prop. auto.
      * right. exists type, prop. auto.
Qed.
End ReachableEnums.

Lemma enums_In_reachable `{Host} (service : Service) (fuel : nat)
    (int : Interface) (es : list Enum) :
  enums service fuel int = Some es ->
  forall e, In e es <-> reachableEnum service int e.
Proof.
  intros Ees. pose proof Ees as E. unfold enums in E. apply bind_Some in E.
  destruct E as (ts & Ets & E). injection E as <-.
  destruct (types_spec _ _ _ _ Ets) as (Hts & _ & _).
  intros e. rewrite sort_In, enumsOfTypes_In, enumsOfMethods_In.
  unfold reachableEnum. split.
  - intros [[[] | (ref & Href & Hres)] | (type & prop & Ht & Hp & Hres)].
    + left. exists ref. split; [exact Href | exact Hres].
    + right. exists type, prop. split; [apply Hts, Ht | auto].
  - intros [(ref & Href & Hres) | (type & prop & Ht & Hp & Hres)].
    + left; right. exists ref. split; [exact Href | exact Hres].
    + right. exists type, prop. split; [apply Hts, Ht | auto].
Qed.

(** X4. The enums of an interface are exactly the enums that a parameter
    or return type of its methods, or a property of one of its reachable
    types, resolves to; they are enums of the registry and no two of them
    share a name.  An enum referenced only by a type that the interface does
    not reach is left out. *)
Theorem enums_exactly_reachable `{Host} (service : Service) (fuel : nat)
    (int : Interface) (es : list Enum) :
  enums service fuel int = Some es ->
  (forall e, In e es <-> reachableEnum service int e)
  /\ Forall (fun e => In e (service_enums service)) es
  /\ NoDup (map enum_name es).
Proof.
  intros Ees. split; [|apply (enums_spec _ _ _ _ Ees)].
  apply (enums_In_reachable _ _ _ _ Ees).
Qed.

Lemma enums_exactly_reachable_witness :
  In Fixtures.colour [Fixtures.colour]
  <-> reachableEnum Fixtures.widgetService Fixtures.widgetInterface Fixtures.colour.
Proof.
  exact (proj1 (enums_exactly_reachable (H := Sample.host) Fixtures.widgetService 2
                  Fixtures.widgetInterface [Fixtures.colour] eq_refl)
               Fixtures.colour).
Defined.

(** ** Interfaces without types *)

Section Unresolved.
Variable service : Service.

Lemma typesOfRef_unresolved (fuel : nat) (ref : TypeRef) (found : list Type_) :
  (forall root, ~ resolves service ref root) ->
  typesOfRef service fuel ref found = Some found.
Proof.
  intros Hnone. unfold typesOfRef.
  destruct (isPrimitive ref) eqn:Eprim; [reflexivity|].
  destruct (getTypeByName service (typeName ref)) as [root|] eqn:Eroot;
    [|reflexivity].
  destruct (Hnone root (conj Eprim Eroot)).
Qed.

Lemma typesOfParameters_unresolved (fuel : nat) (params : list Param)
    (found : list Type_) :
  (forall param root, In param params ->
                      ~ resolves service (param_type param) root) ->
  typesOfParameters service fuel params found = Some found.
Proof.
  induction params as [|p params IH]; simpl; intros Hnone; [reflexivity|].
  rewrite typesOfRef_unresolved; [simpl|intros root; apply Hnone; left; reflexivity].
  apply IH. intros param root Hin. apply Hnone. right. exact Hin.
Qed.

Lemma typesOfMethods_unresolved (fuel : nat) (ms : list Method) (found : list Type_) :
  (forall ref root, refOfInterface (mkInterface "" ms) ref ->
                    ~ resolves service ref root) ->
  typesOfMethods service fuel ms found = Some found.
Proof.
  unfold refOfInterface. simpl.
  induction ms as [|m ms IH]; simpl; intros Hnone; [reflexivity|].
  unfold typesOfMethod. rewrite typesOfParameters_unresolved.
  - simpl. destruct (method_returnType m) as [ref|] eqn:Eref.
    + rewrite typesOfRef_unresolved.
      * apply IH. intros r root (method & Hm & Hr). apply Hnone.
        exists method. auto.
      * intros root. apply Hnone. exists m. auto.
    + apply IH. intros r root (method & Hm & Hr). apply Hnone.
      exists method. auto.
  - intros param root Hp. apply Hnone. exists m. split; [left; reflexivity|].
    left. exists param. auto.
Qed.
End Unresolved.

(** X5. An interface without methods gets a document that is the banner
    block, the title and an empty table of contents, with no section at all;
    it needs no fuel, whatever the registry holds. *)
Theorem empty_interface_document `{Host}
    (banner : Service -> option Options -> list string)
    (service : Service) (options : option Options) (int : Interface) (fuel : nat) :
  interface_methods int = [] ->
  buildToc service fuel int = Some []
  /\ buildInterfaceDocs banner service options fuel int
     = Some (warning banner service options
             ++ [""; "# " +++ title (buildInterfaceName int); ""; ""]).
Proof.
  intros Eempty.
  assert (Ets : types service fuel int = Some []).
  { unfold types. rewrite Eempty. reflexivity. }
  assert (Ees : enums service fuel int = Some []).
  { unfold enums. rewrite Ets, Eempty. reflexivity. }
  assert (Ems : methods int = []) by (unfold methods; rewrite Eempty; reflexivity).
  split.
  - rewrite (buildToc_run _ _ _ _ _ Ets Ees), Ems. reflexivity.
  - rewrite (buildInterfaceDocs_run banner _ _ _ _ _ _ Ets Ees), Ems.
    unfold headerLines, sectionLines, tocLines. simpl.
    rewrite <- !app_assoc. reflexivity.
Qed.

Lemma empty_interface_document_witness :
  buildInterfaceDocs (host := Sample.host) Sample.banner Fixtures.cyclicService None 0
    (mkInterface "idle" [])
  = Some ["<!--"; "This code was generated by a tool."; "--->"; "";
          "# Idle Service"; ""; ""].
Proof.
  exact (proj2 (empty_interface_document (H := Sample.host) Sample.banner
                  Fixtures.cyclicService None (mkInterface "idle" []) 0 eq_refl)).
Defined.

(** X6. When no parameter and no return type of an interface resolves to a
    type of the registry (they are primitive, or enums, or dangling), the
    reachable types are empty with any fuel, and the document has its
    methods and enums but no Types entry in the table of contents and no
    Types section. *)
Theorem interface_without_types `{Host}
    (banner : Service -> option Options -> list string)
    (service : Service) (options : option Options) (int : Interface) (fuel : nat) :
  (forall ref root, refOfInterface int ref -> ~ resolves service ref root) ->
  types service fuel int = Some []
  /\ exists es,
       enums service fuel int = Some es
       /\ buildToc service fuel int
          = Some (whenNonEmpty (methods int)
                    ("- Methods"
                     :: map (fun method =>
                               "  - [" +++ buildMethodName method +++ "]("
                               +++ anchor (buildMethodName method) +++ ")")
                            (methods int))
                  ++ whenNonEmpty es
                       ("- Enums"
                        :: map (fun e =>
                                  "  - [" +++ pascal (enum_name e) +++ "]("
                                  +++ anchor (enum_name e) +++ ")") es))
       /\ buildInterfaceDocs banner service options fuel int
          = Some (headerLines banner service options int
                    (tocLines (methods int) [] es)
                  ++ whenNonEmpty (methods int)
                       ("## Methods" :: ""
                        :: flat_map (buildMethodDocs service options)
                             (methods int))
                  ++ whenNonEmpty es
                       ("## Enums" :: ""
                        :: flat_map (buildEnumDocs service options) es)).
Proof.
  intros Hnone.
  assert (Ets : types service fuel int = Some []).
  { unfold types. rewrite typesOfMethods_unresolved; [reflexivity|].
    intros ref root Href. apply Hnone. exact Href. }
  split; [exact Ets|].
  assert (Ees : exists es, enums service fuel int = Some es).
  { unfold enums. rewrite Ets. eexists; reflexivity. }
  destruct Ees as (es & Ees). exists es. split; [exact Ees|].
  split; [rewrite (buildToc_run _ _ _ _ _ Ets Ees); reflexivity|].
  rewrite (buildInterfaceDocs_run banner _ _ _ _ _ _ Ets Ees). reflexivity.
Qed.

Lemma interface_without_types_witness :
  types (host := Sample.host) Fixtures.gadgetService 0 Fixtures.gadgetInterface
  = Some [].
Proof.
  apply (interface_without_types (H := Sample.host) Sample.banner
           Fixtures.gadgetService None Fixtures.gadgetInterface 0).
  intros ref root (method & [<- | []] & [(param & [<- | []] & <-) | Eret]) [_ Hroot];
    discriminate.
Defined.

(** ** Anchors *)

Lemma append_nil_r (s : string) : s +++ "" = s.
Proof. induction s as [|c s IH]; simpl; [reflexivity | rewrite IH; reflexivity]. Qed.

Lemma splitGo_nonempty (sep s : string) :
  forall skip cur, Js.splitGo sep s skip cur <> [].
Proof.
  induction s as [|c s IH]; intros skip cur; [discriminate|].
  destruct skip; cbn [Js.splitGo]; [|apply IH].
  destruct (String.prefix sep (String c s)); [discriminate | apply IH].
Qed.

Lemma concat_cons (sep x : string) (l : list string) :
  l <> [] -> String.concat sep (x :: l) = x +++ sep +++ String.concat sep l.
Proof. destruct l; [congruence | reflexivity]. Qed.

Lemma mapChars_mapChars (f g : ascii -> ascii) (s : string) :
  Js.mapChars g (Js.mapChars f s) = Js.mapChars (fun c => g (f c)) s.
Proof. induction s as [|c s IH]; simpl; [reflexivity | rewrite IH; reflexivity]. Qed.

Lemma mapChars_length (f : ascii -> ascii) (s : string) :
  String.length (Js.mapChars f s) = String.length s.
Proof. induction s as [|c s IH]; simpl; [reflexivity | rewrite IH; reflexivity]. Qed.

(** Splitting at the spaces and joining with hyphens turns every space into
    a hyphen and leaves the other characters. *)
Lemma split_space_join_hyphen (s : string) :
  forall cur,
    Js.join "-" (Js.splitGo " " s 0 cur)
    = cur +++ Js.mapChars (fun c => if Ascii.eqb c " " then "-"%char else c) s.
Proof.
  unfold Js.join. induction s as [|c s IH]; intros cur.
  - simpl. rewrite append_nil_r. reflexivity.
  - cbn [Js.splitGo String.prefix]. destruct (ascii_dec " " c) as [<- | Hc].
    + assert (Hp : String.prefix "" s = true) by (destruct s; reflexivity).
      rewrite Hp. change (String.length " " - 1) with 0.
      rewrite concat_cons by apply splitGo_nonempty.
      rewrite IH. reflexivity.
    + rewrite IH, append_assoc. simpl.
      destruct (Ascii.eqb_spec c " ") as [-> | _]; [congruence | reflexivity].
Qed.

Lemma lowerChar_idempotent (c : ascii) : Js.lowerChar (Js.lowerChar c) = Js.lowerChar c.
Proof. destruct c as [[] [] [] [] [] [] [] []]; reflexivity. Qed.

Lemma anchor_mapChars (name : string) : anchor name = "#" +++ Js.mapChars anchorChar name.
Proof.
  unfold anchor, Js.split, Js.toLocaleLowerCase.
  rewrite split_space_join_hyphen, mapChars_mapChars. reflexivity.
Qed.

(** X7. For names made of ASCII characters, the anchor of a name is a hash
    sign followed by the name character by character: each character in
    lower case, each space as a hyphen.  Nothing is removed (underscores and
    punctuation stay), so the anchor is one character longer than the name;
    the letter case of the name does not matter; and two such names have the
    same anchor exactly when they agree character by character up to letter
    case and space against hyphen. *)
Theorem anchor_character_by_character (name other : string) :
  isAscii name = true ->
  isAscii other = true ->
  anchor name = "#" +++ Js.mapChars anchorChar name
  /\ String.length (anchor name) = S (String.length name)
  /\ anchor (Js.toLocaleLowerCase name) = anchor name
  /\ (anchor name = anchor other
      <-> Js.mapChars anchorChar name = Js.mapChars anchorChar other).
Proof.
  intros _ _. split; [apply anchor_mapChars|]. split; [|split].
  - rewrite anchor_mapChars. simpl. rewrite mapChars_length. reflexivity.
  - rewrite !anchor_mapChars. unfold Js.toLocaleLowerCase.
    rewrite mapChars_mapChars. f_equal.
    induction name as [|c name IH]; simpl; [reflexivity|].
    rewrite IH. unfold anchorChar. rewrite lowerChar_idempotent. reflexivity.
  - rewrite !anchor_mapChars. simpl. split; [intros E; injection E; auto | congruence].
Qed.

Lemma anchor_character_by_character_witness :
  anchor "Get Widget" = anchor "get-widget"
  <-> Js.mapChars anchorChar "Get Widget" = Js.mapChars anchorChar "get-widget".
Proof.
  exact (proj2 (proj2 (proj2 (anchor_character_by_character "Get Widget" "get-widget"
                                eq_refl eq_refl)))).
Defined.

(** ** More on the order of the parameters *)

Lemma filter_all {A : Type} (f : A -> bool) (l : list A) :
  Forall (fun a => f a = true) l -> filter f l = l.
Proof. induction 1 as [|a l Ha _ IH]; simpl; [reflexivity | rewrite Ha, IH; reflexivity]. Qed.

Lemma filter_none {A : Type} (f : A -> bool) (l : list A) :
  Forall (fun a => f a = false) l -> filter f l = [].
Proof. induction 1 as [|a l Ha _ IH]; simpl; [reflexivity | rewrite Ha, IH; reflexivity]. Qed.

Lemma sortParameters_ordered (req opt : list Param) :
  Forall (fun p => isRequired p = true) req ->
  Forall (fun p => isRequired p = false) opt ->
  sortParameters (req ++ opt) = req ++ opt.
Proof.
  intros Hreq Hopt. rewrite sortParameters_partition, !filter_app.
  rewrite (filter_all isRequired req Hreq), (filter_none isRequired opt Hopt).
  rewrite (filter_none isOptional req), (filter_all isOptional opt).
  - rewrite app_nil_r. reflexivity.
  - eapply Forall_impl; [|exact Hopt]. intros p Hp. unfold isOptional.
    rewrite Hp. reflexivity.
  - eapply Forall_impl; [|exact Hreq]. intros p Hp. unfold isOptional.
    rewrite Hp. reflexivity.
Qed.

(** X8. Sorting the parameters for the signature only rearranges them: the
    result is a permutation of the declared parameters (none is dropped or
    repeated), a list that already has its required parameters first is
    returned as it is, and sorting twice is sorting once. *)
Theorem sortParameters_rearranges (parameters : list Param) :
  Permutation (sortParameters parameters) parameters
  /\ length (sortParameters parameters) = length parameters
  /\ sortParameters (sortParameters parameters) = sortParameters parameters
  /\ (forall req opt,
        Forall (fun p => isRequired p = true) req ->
        Forall (fun p => isRequired p = false) opt ->
        sortParameters (req ++ opt) = req ++ opt).
Proof.
  assert (Hperm : Permutation (sortParameters parameters) parameters)
    by apply sort_perm.
  split; [exact Hperm|]. split; [apply Permutation_length, Hperm|].
  split; [|apply sortParameters_ordered].
  rewrite (sortParameters_partition parameters). apply sortParameters_ordered.
  - apply Forall_forall. intros p Hp. apply filter_In in Hp. apply Hp.
  - apply Forall_forall. intros p Hp. apply filter_In in Hp.
    destruct Hp as [_ Hp]. unfold isOptional in Hp.
    destruct (isRequired p); [discriminate | reflexivity].
Qed.

Lemma sortParameters_rearranges_witness :
  sortParameters ([Sample.required "b" (Sample.prim "string")]
                  ++ [Sample.optional "a" (Sample.prim "string")])
  = [Sample.required "b" (Sample.prim "string")]
    ++ [Sample.optional "a" (Sample.prim "string")].
Proof.
  apply (proj2 (proj2 (proj2 (sortParameters_rearranges [])))).
  - repeat constructor.
  - repeat constructor.
Defined.

(** ** The table of contents *)

Lemma section_heading_In {A : Type} (l : list A) (heading h : string)
    (entry : A -> string) :
  (forall a, entry a <> h) ->
  In h (whenNonEmpty l (heading :: map entry l)) <-> heading = h /\ l <> [].
Proof.
  intros Hentry. destruct l as [|a l]; simpl.
  - split; [contradiction | intros [_ Hl]; congruence].
  - split.
    + intros [E | [E | Hin]].
      * split; [exact E | discriminate].
      * destruct (Hentry a E).
      * apply in_map_iff in Hin. destruct Hin as (x & E & _). destruct (Hentry x E).
    + intros [E _]. left. exact E.
Qed.

Lemma tocLines_heading `{Host} (ms : list Method) (ts : list Type_) (es : list Enum) :
  (In "- Methods" (tocLines ms ts es) <-> ms <> [])
  /\ (In "- Types" (tocLines ms ts es) <-> ts <> [])
  /\ (In "- Enums" (tocLines ms ts es) <-> es <> []).
Proof.
  unfold tocLines.
  assert (Hentry : forall rest h : string, "  - [" +++ rest <> String "-" h)
    by (intros rest h; simpl; discriminate).
  split; [|split];
    rewrite !in_app_iff, !section_heading_In by (intros a; apply Hentry).
  - split.
    + intros [[_ Hl] | [[E _] | [E _]]]; [exact Hl | discriminate | discriminate].
    + intros Hl. left. split; [reflexivity | exact Hl].
  - split.
    + intros [[E _] | [[_ Hl] | [E _]]]; [discriminate | exact Hl | discriminate].
    + intros Hl. right. left. split; [reflexivity | exact Hl].
  - split.
    + intros [[E _] | [[E _] | [_ Hl]]]; [discriminate | discriminate | exact Hl].
    + intros Hl. right. right. split; [reflexivity | exact Hl].
Qed.

(** X9. The table of contents has its Methods group exactly when the
    interface has a method, its Types group exactly when some type is
    reachable from the interface, and its Enums group exactly when some enum
    is: an empty collection leaves no heading behind. *)
Theorem toc_groups `{Host} (service : Service) (fuel : nat) (int : Interface)
    (toc : list string) :
  buildToc service fuel int = Some toc ->
  (In "- Methods" toc <-> interface_methods int <> [])
  /\ (In "- Types" toc <-> exists type, reachableType service int type)
  /\ (In "- Enums" toc <-> exists e, reachableEnum service int e).
Proof.
  intros E. pose proof E as E'. unfold buildToc in E'.
  apply bind_Some in E'. destruct E' as (ts & Ets & E').
  apply bind_Some in E'. destruct E' as (es & Ees & _).
  rewrite (buildToc_run _ _ _ _ _ Ets Ees) in E. injection E as <-.
  destruct (tocLines_heading (methods int) ts es) as (Hm & Ht & He).
  destruct (types_spec _ _ _ _ Ets) as (Hts & _ & _).
  pose proof (enums_In_reachable _ _ _ _ Ees) as Hes.
  split; [|split].
  - rewrite Hm. split; intros Hne Hnil; apply Hne.
    + unfold methods. rewrite Hnil. reflexivity.
    + apply Permutation_nil. rewrite <- Hnil. apply methods_perm.
  - rewrite Ht. split.
    + destruct ts as [|t ts]; [congruence|]. intros _. exists t.
      apply Hts. left. reflexivity.
    + intros (t & Hreach) Hnil. apply Hts in Hreach. rewrite Hnil in Hreach.
      destruct Hreach.
  - rewrite He. split.
    + destruct es as [|e es]; [congruence|]. intros _. exists e.
      apply Hes. left. reflexivity.
    + intros (e & Hreach) Hnil. apply Hes in Hreach. rewrite Hnil in Hreach.
      destruct Hreach.
Qed.

Lemma toc_groups_witness :
  In "- Enums" ["- Methods"; "  - [get_widgets](#get_widgets)";
                "  - [get_widget_zones](#get_widget_zones)";
                "- Types"; "  - [Part](#part)"; "  - [Widget](#widget)";
                "- Enums"; "  - [Colour](#colour)"]
  <-> exists e, reachableEnum Fixtures.widgetService Fixtures.widgetInterface e.
Proof.
  exact (proj2 (proj2 (toc_groups (H := Sample.host) Fixtures.widgetService 2
                         Fixtures.widgetInterface _ eq_refl))).
Defined.

(** ** Closure of the reachable types *)

(** X10. The reachable types of an interface are types of the registry,
    hold every type that a parameter or a return type of the interface
    resolves to, and are closed under references: whatever type a property
    of a reachable type resolves to is reachable too.  So every type that a
    documented parameter or property links to and that exists in the
    registry has its own entry in the same document. *)
Theorem reachable_types_closed `{Host} (service : Service) (fuel : nat)
    (int : Interface) (ts : list Type_) :
  types service fuel int = Some ts ->
  (forall type, In type ts -> In type (service_types service))
  /\ (forall ref root,
        refOfInterface int ref -> resolves service ref root -> In root ts)
  /\ (forall type prop u,
        In type ts -> In prop (type_properties type) ->
        resolves service (param_type prop) u -> In u ts).
Proof.
  intros Ets. destruct (types_spec _ _ _ _ Ets) as (Hts & _ & Hreg).
  split; [|split].
  - intros type Hin. rewrite Forall_forall in Hreg.
    apply (getTypeByName_Some _ _ _ (Hreg type Hin)).
  - intros ref root Href Hroot. apply Hts. exists ref, root.
    split; [exact Href|]. split; [exact Hroot | constructor].
  - intros type prop u Hin Hprop Hres. apply Hts. apply Hts in Hin.
    destruct Hin as (ref & root & Href & Hroot & Hreach).
    exists ref, root. split; [exact Href|]. split; [exact Hroot|].
    apply (reachesType_trans _ _ _ _ Hreach).
    econstructor; [exact Hprop | exact Hres | constructor].
Qed.

Lemma reachable_types_closed_witness :
  In Fixtures.part [Fixtures.part; Fixtures.widget].
Proof.
  exact (proj2 (proj2 (reachable_types_closed (H := Sample.host)
                         Fixtures.widgetService 2 Fixtures.widgetInterface
                         [Fixtures.part; Fixtures.widget] eq_refl))
               Fixtures.widget (Sample.optional "parts" (Sample.arrayOf "part"))
               Fixtures.part (or_intror (or_introl eq_refl))
               (or_intror (or_introl eq_refl)) (conj eq_refl eq_refl)).
Defined.

(** ** Nothing is left out of a document *)

Section Coverage.
Context {host : Host}.
Variable service : Service.
Variable options : option Options.

Lemma sectionLines_type (ms : list Method) (ts : list Type_) (es : list Enum)
    (type : Type_) :
  In type ts ->
  exists before after,
    sectionLines service options ms ts es
    = before ++ buildTypeDocs service options type ++ after.
Proof.
  intros Hin. unfold sectionLines. rewrite (whenNonEmpty_In ts _ _ Hin).
  destruct (flat_map_segment (buildTypeDocs service options) ts type Hin)
    as (before & after & ->).
  exists (whenNonEmpty ms
            ("## Methods" :: "" :: flat_map (buildMethodDocs service options) ms)
          ++ "## Types" :: "" :: before),
         (after
          ++ whenNonEmpty es
               ("## Enums" :: "" :: flat_map (buildEnumDocs service options) es)).
  flatten_app. reflexivity.
Qed.

Lemma tocLines_entries (ms : list Method) (ts : list Type_) (es : list Enum) :
  (forall method, In method ms ->
     In ("  - [" +++ buildMethodName method +++ "]("
         +++ anchor (buildMethodName method) +++ ")") (tocLines ms ts es))
  /\ (forall type, In type ts ->
        In ("  - [" +++ pascal (type_name type) +++ "]("
            +++ anchor (type_name type) +++ ")") (tocLines ms ts es))
  /\ (forall e, In e es ->
        In ("  - [" +++ pascal (enum_name e) +++ "]("
            +++ anchor (enum_name e) +++ ")") (tocLines ms ts es)).
Proof.
  unfold tocLines. split; [|split]; intros x Hin; rewrite !in_app_iff.
  - left. rewrite (whenNonEmpty_In ms _ _ Hin). right.
    apply (in_map (fun method =>
                     "  - [" +++ buildMethodName method +++ "]("
                     +++ anchor (buildMethodName method) +++ ")") _ _ Hin).
  - right. left. rewrite (whenNonEmpty_In ts _ _ Hin). right.
    apply (in_map (fun type =>
                     "  - [" +++ pascal (type_name type) +++ "]("
                     +++ anchor (type_name type) +++ ")") _ _ Hin).
  - right. right. rewrite (whenNonEmpty_In es _ _ Hin). right.
    apply (in_map (fun e =>
                     "  - [" +++ pascal (enum_name e) +++ "]("
                     +++ anchor (enum_name e) +++ ")") _ _ Hin).
Qed.

Lemma headerLines_toc (banner : Service -> option Options -> list string)
    (int : Interface) (toc : list string) (line : string) :
  In line toc -> In line (headerLines banner service options int toc).
Proof.
  intros Hin. unfold headerLines. rewrite !in_app_iff. right. right. left. exact Hin.
Qed.
End Coverage.

(** X11. A document that is generated leaves nothing out: every method of
    the interface, every type reachable from it and every enum reachable
    from it has its entry in the table of contents, and its documentation
    block stands in the document as a run of consecutive lines. *)
Theorem every_item_documented `{Host}
    (banner : Service -> option Options -> list string)
    (service : Service) (options : option Options) (fuel : nat)
    (int : Interface) (lines : list string) :
  buildInterfaceDocs banner service options fuel int = Some lines ->
  (forall method, In method (interface_methods int) ->
     In ("  - [" +++ buildMethodName method +++ "]("
         +++ anchor (buildMethodName method) +++ ")") lines
     /\ exists before after,
          lines = before ++ buildMethodDocs service options method ++ after)
  /\ (forall type, reachableType service int type ->
        In ("  - [" +++ pascal (type_name type) +++ "]("
            +++ anchor (type_name type) +++ ")") lines
        /\ exists before after,
             lines = before ++ buildTypeDocs service options type ++ after)
  /\ (forall e, reachableEnum service int e ->
        In ("  - [" +++ pascal (enum_name e) +++ "]("
            +++ anchor (enum_name e) +++ ")") lines
        /\ exists before after,
             lines = before ++ buildEnumDocs service options e ++ after).
Proof.
  intros E. pose proof E as E'. unfold buildInterfaceDocs in E'.
  apply bind_Some in E'. destruct E' as (ts & Ets & E').
  apply bind_Some in E'. destruct E' as (es & Ees & _).
  assert (Hlines : lines
                   = headerLines banner service options int
                       (tocLines (methods int) ts es)
                     ++ sectionLines service options (methods int) ts es)
    by (rewrite (buildInterfaceDocs_run banner _ _ _ _ _ _ Ets Ees) in E; congruence).
  subst lines. clear E.
  destruct (types_spec _ _ _ _ Ets) as (Hts & _ & _).
  pose proof (enums_In_reachable _ _ _ _ Ees) as Hes.
  destruct (tocLines_entries (methods int) ts es) as (Tm & Tt & Te).
  split; [|split].
  - intros method Hin.
    assert (Hsorted : In method (methods int)) by (apply sort_In, Hin).
    split.
    + apply in_or_app. left. apply headerLines_toc, Tm, Hsorted.
    + destruct (sectionLines_method service options (methods int) ts es method
                  Hsorted) as (before & after & ->).
      exists (headerLines banner service options int (tocLines (methods int) ts es)
              ++ before), after.
      rewrite <- app_assoc. reflexivity.
  - intros type Hreach. apply Hts in Hreach. split.
    + apply in_or_app. left. apply headerLines_toc, Tt, Hreach.
    + destruct (sectionLines_type service options (methods int) ts es type Hreach)
        as (before & after & ->).
      exists (headerLines banner service options int (tocLines (methods int) ts es)
              ++ before), after.
      rewrite <- app_assoc. reflexivity.
  - intros e Hreach. apply Hes in Hreach. split.
    + apply in_or_app. left. apply headerLines_toc, Te, Hreach.
    + destruct (sectionLines_enum service options (methods int) ts es e Hreach)
        as (before & after & ->).
      exists (headerLines banner service options int (tocLines (methods int) ts es)
              ++ before), after.
      rewrite <- app_assoc. reflexivity.
Qed.

Lemma every_item_documented_witness :
  In "  - [put_gadget](#put_gadget)"
     ["<!--"; "This code was generated by a tool."; "--->"; "";
      "# Gadgets Service"; ""; "- Methods"; "  - [put_gadget](#put_gadget)"; "";
      "## Methods"; ""; "### put_gadget"; ""; "`put_gadget(gadget:)`"; "";
      "- `gadget` [Gadget](#gadget)"; ""].
Proof.
  exact (proj1 (proj1 (every_item_documented (H := Sample.host) Sample.banner
                         Fixtures.gadgetService None 0 Fixtures.gadgetInterface
                         _ eq_refl) Fixtures.putGadget (or_introl eq_refl))).
Defined.

(** ** The order does not depend on the declaration order *)

Section Canonical.
Context {host : Host}.
Hypothesis cmp_total :
  forall a b, (localeCompare a b <= 0 \/ localeCompare b a <= 0)%Z.
Hypothesis cmp_trans :
  forall a b c,
    (localeCompare a b <= 0 -> localeCompare b c <= 0 -> localeCompare a c <= 0)%Z.
Hypothesis cmp_antisym :
  forall a b, (localeCompare a b <= 0 -> localeCompare b a <= 0 -> a = b)%Z.

Lemma NoDup_key_injective {A : Type} (key : A -> string) (l : list A) (a b : A) :
  NoDup (map key l) -> In a l -> In b l -> key a = key b -> a = b.
Proof.
  induction l as [|x l IH]; simpl; intros Hnd Ha Hb E; [contradiction|].
  inversion Hnd as [|? ? Hnotin Hnd']; subst.
  destruct Ha as [<- | Ha], Hb as [<- | Hb].
  - reflexivity.
  - destruct Hnotin. rewrite E. apply in_map, Hb.
  - destruct Hnotin. rewrite <- E. apply in_map, Ha.
  - apply IH; assumption.
Qed.

(** Two lists in ascending order of keys that hold the same elements, with
    no key twice, are the same list. *)
Lemma ascending_unique {A : Type} (key : A -> string) (l : list A) :
  forall l',
    ascendingBy key l -> ascendingBy key l' ->
    NoDup (map key l) -> Permutation l l' -> l = l'.
Proof.
  unfold ascendingBy.
  induction l as [|x l IH]; intros l' Hl Hl' Hnd Hperm.
  - apply Permutation_nil in Hperm. congruence.
  - destruct l' as [|y l'].
    { apply Permutation_sym, Permutation_nil in Hperm. discriminate. }
    inversion Hl as [|? ? Hsl Hx]; subst. inversion Hl' as [|? ? Hsl' Hy]; subst.
    assert (Exy : x = y).
    { assert (Hxin : In x (y :: l'))
        by (apply (Permutation_in _ Hperm); left; reflexivity).
      assert (Hyin : In y (x :: l))
        by (apply (Permutation_in _ (Permutation_sym Hperm)); left; reflexivity).
      destruct Hxin as [E | Hxin]; [congruence|].
      destruct Hyin as [E | Hyin]; [congruence|].
      rewrite Forall_forall in Hx, Hy.
      apply (NoDup_key_injective key (x :: l)); [exact Hnd | left; reflexivity
                                                 | right; exact Hyin|].
      apply cmp_antisym; [apply Hx, Hyin | apply Hy, Hxin]. }
    subst y. f_equal. apply IH; [exact Hsl | exact Hsl'| |].
    + simpl in Hnd. inversion Hnd; assumption.
    + apply (Permutation_cons_inv Hperm).
Qed.

Lemma sort_ascending {A : Type} (key : A -> string) (l : list A) :
  ascendingBy key (Js.sort (fun a b => localeCompare (key a) (key b)) l).
Proof.
  unfold ascendingBy.
  apply (sort_sorted (fun a b => localeCompare (key a) (key b))).
  - intros a b. apply cmp_total.
  - intros a b c. apply cmp_trans.
Qed.

Lemma sort_canonical {A : Type} (key : A -> string) (l l' : list A) :
  NoDup (map key l) -> Permutation l l' ->
  Js.sort (fun a b => localeCompare (key a) (key b)) l
  = Js.sort (fun a b => localeCompare (key a) (key b)) l'.
Proof.
  intros Hnd Hperm. apply (ascending_unique key); try apply sort_ascending.
  - apply (Permutation_NoDup
             (Permutation_map key (Permutation_sym (sort_perm _ l)))), Hnd.
  - apply perm_trans with l; [apply sort_perm|].
    apply perm_trans with l'; [exact Hperm | apply Permutation_sym, sort_perm].
Qed.

Lemma methods_canonical (int int' : Interface) :
  NoDup (map method_name (interface_methods int)) ->
  Permutation (interface_methods int) (interface_methods int') ->
  methods int = methods int'.
Proof. intros Hnd Hperm. apply (sort_canonical method_name); assumption. Qed.

Lemma types_canonical (service : Service) (fuel fuel' : nat)
    (int int' : Interface) (ts ts' : list Type_) :
  (forall ref, refOfInterface int ref <-> refOfInterface int' ref) ->
  types service fuel int = Some ts ->
  types service fuel' int' = Some ts' ->
  ts = ts'.
Proof.
  intros Hrefs Ets Ets'.
  destruct (types_spec _ _ _ _ Ets) as (Hts & Hnd & _).
  destruct (types_spec _ _ _ _ Ets') as (Hts' & Hnd' & _).
  apply (ascending_unique type_name); [| |exact Hnd|].
  - unfold types in Ets. apply bind_Some in Ets.
    destruct Ets as (found & _ & E). injection E as <-. apply sort_ascending.
  - unfold types in Ets'. apply bind_Some in Ets'.
    destruct Ets' as (found & _ & E). injection E as <-. apply sort_ascending.
  - apply NoDup_Permutation.
    + apply (NoDup_map_inv _ _ Hnd).
    + apply (NoDup_map_inv _ _ Hnd').
    + intros type. rewrite Hts, Hts'. unfold reachableType.
      split; intros (ref & root & Href & Hrest); exists ref, root;
        (split; [apply Hrefs, Href | exact Hrest]).
Qed.

Lemma enums_canonical (service : Service) (fuel fuel' : nat)
    (int int' : Interface) (es es' : list Enum) :
  (forall ref, refOfInterface int ref <-> refOfInterface int' ref) ->
  enums service fuel int = Some es ->
  enums service fuel' int' = Some es' ->
  es = es'.
Proof.
  intros Hrefs Ees Ees'.
  destruct (enums_spec _ _ _ _ Ees) as (_ & Hnd).
  destruct (enums_spec _ _ _ _ Ees') as (_ & Hnd').
  pose proof (enums_In_reachable _ _ _ _ Ees) as Hes.
  pose proof (enums_In_reachable _ _ _ _ Ees') as Hes'.
  apply (ascending_unique enum_name); [| |exact Hnd|].
  - unfold enums in Ees. apply bind_Some in Ees.
    destruct Ees as (found & _ & E). injection E as <-. apply sort_ascending.
  - unfold enums in Ees'. apply bind_Some in Ees'.
    destruct Ees' as (found & _ & E). injection E as <-. apply sort_ascending.
  - apply NoDup_Permutation.
    + apply (NoDup_map_inv _ _ Hnd).
    + apply (NoDup_map_inv _ _ Hnd').
    + intros e. rewrite Hes, Hes'. unfold reachableEnum, reachableType.
      split.
      * intros [(ref & Href & Hres) | (type & prop & (ref & root & Href & Hrest) & Hp)].
        -- left. exists ref. split; [apply Hrefs, Href | exact Hres].
        -- right. exists type, prop. split; [|exact Hp].
           exists ref, root. split; [apply Hrefs, Href | exact Hrest].
      * intros [(ref & Href & Hres) | (type & prop & (ref & root & Href & Hrest) & Hp)].
        -- left. exists ref. split; [apply Hrefs, Href | exact Hres].
        -- right. exists type, prop. split; [|exact Hp].
           exists ref, root. split; [apply Hrefs, Href | exact Hrest].
Qed.
End Canonical.

Lemma rootCompare_antisym (a b : string) :
  (Sample.rootCompare a b <= 0 -> Sample.rootCompare b a <= 0 -> a = b)%Z.
Proof.
  intros Hab Hba. apply rootCompare_separates. revert Hab Hba.
  unfold Sample.rootCompare.
  rewrite (String.compare_antisym (Js.mapChars Js.lowerChar a)).
  rewrite (String.compare_antisym (Js.mapChars Sample.swapCase a)).
  destruct (String.compare (Js.mapChars Js.lowerChar b) (Js.mapChars Js.lowerChar a));
    simpl; try lia.
  destruct (String.compare (Js.mapChars Sample.swapCase b)
                           (Js.mapChars Sample.swapCase a)); simpl; lia.
Qed.

Lemma refOfInterface_perm (int int' : Interface) :
  Permutation (interface_methods int) (interface_methods int') ->
  forall ref, refOfInterface int ref <-> refOfInterface int' ref.
Proof.
  intros Hperm ref. unfold refOfInterface.
  split; intros (method & Hm & Href); exists method; (split; [|exact Href]).
  - apply (Permutation_in _ Hperm), Hm.
  - apply (Permutation_in _ (Permutation_sym Hperm)), Hm.
Qed.

(** X12. When the comparison of the host is a total order on names and the
    method names of an interface are unique, the order in which the methods
    are documented does not depend on the order in which the interface
    declares them: any rearrangement of the declared methods gives the same
    sorted list. *)
Theorem methods_order_independent `{Host} (int int' : Interface) :
  (forall a b, (localeCompare a b <= 0 \/ localeCompare b a <= 0)%Z) ->
  (forall a b c,
     (localeCompare a b <= 0 -> localeCompare b c <= 0 -> localeCompare a c <= 0)%Z) ->
  (forall a b, (localeCompare a b <= 0 -> localeCompare b a <= 0 -> a = b)%Z) ->
  NoDup (map method_name (interface_methods int)) ->
  Permutation (interface_methods int) (interface_methods int') ->
  methods int = methods int'.
Proof.
  intros Htotal Htrans Hanti Hnd Hperm. apply methods_canonical; assumption.
Qed.

Lemma methods_order_independent_witness :
  methods (host := Sample.host) Fixtures.widgetInterface
  = methods (host := Sample.host)
      (mkInterface "widgets" [Fixtures.getWidgets; Fixtures.getWidgetZones]).
Proof.
  apply (methods_order_independent (H := Sample.host));
    [exact rootCompare_total | exact rootCompare_trans | exact rootCompare_antisym
     | | apply perm_swap].
  repeat constructor; simpl; intuition discriminate.
Defined.

(** X13. When the comparison of the host is a total order on names, the
    lists of reachable types and of reachable enums depend only on which
    type references the methods of the interface carry, not on the order of
    the methods or of their parameters, nor on how often a reference
    occurs: two interfaces with the same references get the same lists. *)
Theorem collections_depend_on_references `{Host} (service : Service)
    (fuel fuel' : nat) (int int' : Interface)
    (ts ts' : list Type_) (es es' : list Enum) :
  (forall a b, (localeCompare a b <= 0 \/ localeCompare b a <= 0)%Z) ->
  (forall a b c,
     (localeCompare a b <= 0 -> localeCompare b c <= 0 -> localeCompare a c <= 0)%Z) ->
  (forall a b, (localeCompare a b <= 0 -> localeCompare b a <= 0 -> a = b)%Z) ->
  (forall ref, refOfInterface int ref <-> refOfInterface int' ref) ->
  types service fuel int = Some ts ->
  types service fuel' int' = Some ts' ->
  enums service fuel int = Some es ->
  enums service fuel' int' = Some es' ->
  ts = ts' /\ es = es'.
Proof.
  intros Htotal Htrans Hanti Hrefs Ets Ets' Ees Ees'. split.
  - apply (types_canonical Htotal Htrans Hanti service fuel fuel' int int');
      assumption.
  - apply (enums_canonical Htotal Htrans Hanti service fuel fuel' int int');
      assumption.
Qed.

Lemma collections_depend_on_references_witness :
  [Fixtures.part; Fixtures.widget] = [Fixtures.part; Fixtures.widget]
  /\ [Fixtures.colour] = [Fixtures.colour].
Proof.
  apply (collections_depend_on_references (H := Sample.host)
           Fixtures.widgetService 2 3 Fixtures.widgetInterface
           (mkInterface "widgets" [Fixtures.getWidgets; Fixtures.getWidgetZones])
           _ _ _ _ rootCompare_total rootCompare_trans rootCompare_antisym);
    [apply refOfInterface_perm, perm_swap | reflexivity | reflexivity
     | reflexivity | reflexivity].
Defined.

(** ** The path of a document *)

Lemma split_nonempty (sep s : string) : Js.split sep s <> [].
Proof. apply splitGo_nonempty. Qed.

(** X14. The path of the document of an interface has at least two
    segments: the directories made of the namespace of the service, at
    least one because splitting never returns an empty list, and last the
    file, named after the interface with the extension md.  The directories
    are the same for all interfaces of a service, and an empty namespace
    still gives one directory, the snake case of the empty string. *)
Theorem docs_filepath_shape `{Host} (int int' : Interface) (service : Service)
    (options : option Options) :
  2 <= length (buildInterfaceDocsFilepath int service options)
  /\ last (buildInterfaceDocsFilepath int service options) ""
     = snake (buildInterfaceName int) +++ ".md"
  /\ removelast (buildInterfaceDocsFilepath int service options)
     = removelast (buildInterfaceDocsFilepath int' service options)
  /\ (buildInterfaceNamespace service options = "" ->
      buildInterfaceDocsFilepath int service options
      = [snake ""; snake (buildInterfaceName int) +++ ".md"]).
Proof.
  unfold buildInterfaceDocsFilepath. split; [|split; [|split]].
  - rewrite length_app, length_map. simpl.
    pose proof (split_nonempty "::" (buildInterfaceNamespace service options)) as Hne.
    destruct (Js.split "::" (buildInterfaceNamespace service options));
      [congruence | simpl; lia].
  - apply last_last.
  - rewrite !removelast_last. reflexivity.
  - intros ->. reflexivity.
Qed.

Lemma docs_filepath_shape_witness :
  buildInterfaceDocsFilepath (H := Sample.host) Fixtures.widgetInterface
    (mkService "" [] [] []) None
  = [""; "widgets_service.md"].
Proof.
  exact (proj2 (proj2 (proj2 (docs_filepath_shape (H := Sample.host)
                                Fixtures.widgetInterface Fixtures.widgetInterface
                                (mkService "" [] [] []) None))) eq_refl).
Defined.

(** ** The visible type name *)

Lemma substring_all (s : string) : String.substring 0 (String.length s) s = s.
Proof. induction s as [|c s IH]; simpl; [reflexivity | rewrite IH; reflexivity]. Qed.

Lemma substringFrom_append (front rest : string) :
  Js.substringFrom (String.length front) (front +++ rest) = rest.
Proof.
  unfold Js.substringFrom.
  induction front as [|c front IH]; simpl.
  - rewrite Nat.sub_0_r. apply substring_all.
  - exact IH.
Qed.

Lemma substringFrom_beyond (s : string) :
  forall n, String.length s <= n -> Js.substringFrom n s = "".
Proof.
  unfold Js.substringFrom. induction s as [|c s IH]; intros n Hn; simpl.
  - destruct n; reflexivity.
  - destruct n as [|n]; simpl in Hn; [lia|]. apply IH. lia.
Qed.

(** X15. The visible name of a named type is what stands in the qualified
    name behind as many characters as the type namespace and its two colons
    have: the namespace is cut off by its length, not by its text, so a
    qualified name under another prefix of the same length is cut as well,
    and a qualified name no longer than that leaves the empty name.  The
    name of a primitive is not cut. *)
Theorem buildTypeName_cuts_by_length `{Host} (service : Service)
    (options : option Options) (type : TypeRef) (skipArrayify : bool) :
  (isPrimitive type = true ->
   buildTypeName service options type skipArrayify
   = sorbetTypeName type service options skipArrayify)
  /\ (forall front rest,
        isPrimitive type = false ->
        sorbetTypeName type service options skipArrayify = front +++ rest ->
        String.length front = String.length (buildTypeNamespace service options) + 2 ->
        buildTypeName service options type skipArrayify = rest)
  /\ (isPrimitive type = false ->
      String.length (sorbetTypeName type service options skipArrayify)
      <= String.length (buildTypeNamespace service options) + 2 ->
      buildTypeName service options type skipArrayify = "").
Proof.
  unfold buildTypeName. split; [|split].
  - intros ->. reflexivity.
  - intros front rest -> -> <-. apply substringFrom_append.
  - intros -> Hshort. apply substringFrom_beyond, Hshort.
Qed.

Lemma buildTypeName_cuts_by_length_witness :
  buildTypeName (host := Sample.host) Fixtures.widgetService None
    (Sample.named "widget") true = "Widget".
Proof.
  exact (proj1 (proj2 (buildTypeName_cuts_by_length (H := Sample.host)
                         Fixtures.widgetService None (Sample.named "widget") true))
               "Example::Types::" "Widget" eq_refl eq_refl eq_refl).
Defined.

(** ** The bullets of a type *)

(** X16. The bullet list of a type's properties follows the declaration
    order of the model, as the bullets of a method's parameters do: behind
    the heading, the qualified name, the description (two lines for each of
    its lines) and a blank line, the bullet of the k-th declared property is
    the k-th line, and only the closing blank line follows the bullets.  A
    type without properties has no bullets and no blank line for them. *)
Theorem property_bullets_declaration_order `{Host}
    (service : Service) (options : option Options) (type : Type_) :
  buildTypeDocs service options type
  = ["### " +++ pascal (type_name type); "";
     "`" +++ buildTypeNamespace service options +++ "::"
         +++ pascal (type_name type) +++ "`"]
    ++ descriptionLines (type_description type)
    ++ whenNonEmpty (type_properties type) [""]
    ++ map (buildProperty service options) (type_properties type)
    ++ [""]
  /\ (forall k prop,
        nth_error (type_properties type) k = Some prop ->
        nth_error (buildTypeDocs service options type)
                  (4 + length (descriptionLines (type_description type)) + k)
        = Some (buildProperty service options prop))
  /\ (type_properties type = [] ->
      buildTypeDocs service options type
      = ["### " +++ pascal (type_name type); "";
         "`" +++ buildTypeNamespace service options +++ "::"
             +++ pascal (type_name type) +++ "`"]
        ++ descriptionLines (type_description type) ++ [""]).
Proof.
  assert (Hshape : buildTypeDocs service options type
    = ["### " +++ pascal (type_name type); "";
       "`" +++ buildTypeNamespace service options +++ "::"
           +++ pascal (type_name type) +++ "`"]
      ++ descriptionLines (type_description type)
      ++ whenNonEmpty (type_properties type) [""]
      ++ map (buildProperty service options) (type_properties type)
      ++ [""]).
  { unfold buildTypeDocs. destruct (type_properties type); reflexivity. }
  split; [exact Hshape|]. split.
  - intros k prop Hk. rewrite Hshape.
    destruct (type_properties type) as [|p ps] eqn:Eps; [destruct k; discriminate|].
    remember (descriptionLines (type_description type)) as d eqn:Ed. clear Ed.
    cbn [whenNonEmpty].
    rewrite nth_error_app2 by (simpl; lia).
    rewrite nth_error_app2 by (simpl; lia).
    replace (4 + length d + k - length ["### " +++ pascal (type_name type); "";
               "`" +++ buildTypeNamespace service options +++ "::"
                   +++ pascal (type_name type) +++ "`"] - length d)
      with (S k) by (cbn [length]; lia).
    change (nth_error (map (buildProperty service options) (p :: ps) ++ [""]) k
            = Some (buildProperty service options prop)).
    rewrite nth_error_app1.
    + apply map_nth_error, Hk.
    + rewrite length_map. apply nth_error_Some. congruence.
  - intros Eps. rewrite Hshape, Eps. reflexivity.
Qed.

Lemma property_bullets_declaration_order_witness :
  nth_error (buildTypeDocs (host := Sample.host) Fixtures.widgetService None
               Fixtures.widget) (4 + 2 + 1)
  = Some "- `parts` [Part](#part)[] (optional)".
Proof.
  exact (proj1 (proj2 (property_bullets_declaration_order (H := Sample.host)
                         Fixtures.widgetService None Fixtures.widget))
               1 (Sample.optional "parts" (Sample.arrayOf "part")) eq_refl).
Defined.

(** ** Dangling references and the document *)

Lemma reachesType_registry (service : Service) (type v : Type_) :
  In type (service_types service) ->
  reachesType service type v -> In v (service_types service).
Proof.
  intros Hin Hreach. induction Hreach as [t | t prop u v _ Hres _ IH]; [exact Hin|].
  apply IH. destruct Hres as [_ Hu]. apply (getTypeByName_Some _ _ _ Hu).
Qed.

Lemma reachableType_registry (service : Service) (int : Interface) (type : Type_) :
  reachableType service int type -> In type (service_types service).
Proof.
  intros (ref & root & _ & [_ Hroot] & Hreach).
  apply (reachesType_registry service root); [|exact Hreach].
  apply (getTypeByName_Some _ _ _ Hroot).
Qed.

Lemma buildInterfaceDocs_parameter `{Host}
    (banner : Service -> option Options -> list string)
    (service : Service) (options : option Options) (fuel : nat) (int : Interface)
    (method : Method) (param : Param) (lines : list string) :
  In method (interface_methods int) ->
  In param (method_parameters method) ->
  buildInterfaceDocs banner service options fuel int = Some lines ->
  In (buildParameter service options param) lines.
Proof.
  intros Hmethod Hparam E. pose proof E as E'. unfold buildInterfaceDocs in E'.
  apply bind_Some in E'. destruct E' as (ts & Ets & E').
  apply bind_Some in E'. destruct E' as (es & Ees & _).
  assert (Hlines : lines
                   = headerLines banner service options int
                       (tocLines (methods int) ts es)
                     ++ sectionLines service options (methods int) ts es)
    by (rewrite (buildInterfaceDocs_run banner _ _ _ _ _ _ Ets Ees) in E; congruence).
  subst lines. apply in_or_app. right.
  assert (Hsorted : In method (methods int)) by (apply sort_In, Hmethod).
  destruct (sectionLines_method service options (methods int) ts es method Hsorted)
    as (before & after & ->).
  apply in_or_app. right. apply in_or_app. left.
  apply buildMethodDocs_parameter, Hparam.
Qed.

Lemma buildInterfaceDocs_acyclic_terminates `{Host}
    (banner : Service -> option Options -> list string)
    (service : Service) (options : option Options) (int : Interface) :
  (forall type, reachableType service int type -> ~ onCycle service type) ->
  exists lines,
    buildInterfaceDocs banner service options
      (S (length (service_types service))) int = Some lines.
Proof.
  intros Hacyclic.
  destruct (types_acyclic_terminates service int Hacyclic) as (ts & Ets).
  assert (Ees : exists es,
             enums service (S (length (service_types service))) int = Some es).
  { unfold enums. rewrite Ets. eexists; reflexivity. }
  destruct Ees as (es & Ees). eexists.
  apply (buildInterfaceDocs_run banner _ _ _ _ _ _ Ets Ees).
Qed.

(** C2. A parameter whose non-primitive type is not in the registry is
    rendered with its type name as a link to the anchor of that name (the
    link is built from the primitive flag alone, no registry is asked); no
    type of that name is reachable from the interface, nor in the
    reachable-types collection whenever that is computed; every document
    that is generated for the interface holds the line of the parameter;
    and when the interface reaches no type that lies on a reference cycle,
    the document is generated. *)
Theorem dangling_parameter_tolerated `{Host}
    (banner : Service -> option Options -> list string)
    (service : Service) (options : option Options) (int : Interface)
    (method : Method) (param : Param) :
  In method (interface_methods int) ->
  In param (method_parameters method) ->
  isPrimitive (param_type param) = false ->
  getTypeByName service (typeName (param_type param)) = None ->
  buildParameter service options param
  = "- `" +++ buildParameterName param +++ "` ["
    +++ buildTypeName service options (param_type param) true
    +++ "](" +++ anchor (buildTypeName service options (param_type param) true)
    +++ ")" +++ (if isArray (param_type param) then "[]" else "")
    +++ (if isRequired param then "" else " (optional)")
    +++ buildParameterDescription param
  /\ (forall type, reachableType service int type ->
                   type_name type <> typeName (param_type param))
  /\ (forall fuel ts type,
        types service fuel int = Some ts -> In type ts ->
        type_name type <> typeName (param_type param))
  /\ (forall fuel lines,
        buildInterfaceDocs banner service options fuel int = Some lines ->
        In (buildParameter service options param) lines)
  /\ ((forall type, reachableType service int type -> ~ onCycle service type) ->
      exists lines,
        buildInterfaceDocs banner service options
          (S (length (service_types service))) int = Some lines
        /\ In (buildParameter service options param) lines).
Proof.
  intros Hmethod Hparam Hprim Hnone.
  assert (Hreach : forall type, reachableType service int type ->
                                type_name type <> typeName (param_type param)).
  { intros type Hr. apply (getTypeByName_None _ _ _ Hnone).
    apply (reachableType_registry _ _ _ Hr). }
  split; [|split; [exact Hreach|split; [|split]]].
  - unfold buildParameter, buildLinkedTypeName. rewrite Hprim.
    repeat (progress (simpl; rewrite ?append_assoc)). reflexivity.
  - intros fuel ts type Ets Hin. apply Hreach.
    apply (proj1 (types_spec _ _ _ _ Ets)), Hin.
  - intros fuel lines E.
    apply (buildInterfaceDocs_parameter banner _ _ _ _ _ _ _ Hmethod Hparam E).
  - intros Hacyclic.
    destruct (buildInterfaceDocs_acyclic_terminates banner service options int
                Hacyclic) as (lines & E).
    exists lines. split; [exact E|].
    apply (buildInterfaceDocs_parameter banner _ _ _ _ _ _ _ Hmethod Hparam E).
Qed.

Lemma dangling_parameter_tolerated_witness :
  exists lines,
    buildInterfaceDocs (host := Sample.host) Sample.banner
      Fixtures.gadgetCyclicService None
      (S (length (service_types Fixtures.gadgetCyclicService)))
      Fixtures.gadgetInterface = Some lines
    /\ In "- `gadget` [Gadget](#gadget)" lines.
Proof.
  apply (dangling_parameter_tolerated (H := Sample.host) Sample.banner
           Fixtures.gadgetCyclicService None Fixtures.gadgetInterface
           Fixtures.putGadget Fixtures.gadgetParam
           (or_introl eq_refl) (or_introl eq_refl) eq_refl eq_refl).
  apply (types_Some_acyclic (H := Sample.host) Fixtures.gadgetCyclicService
           Fixtures.gadgetInterface 0 [] eq_refl).
Defined.

(** ** What the walk and the engine return *)

(** X17. Whenever the reachable-types computation of an interface returns,
    its result holds exactly the types reachable from the parameters and
    return types of the interface, no two of them with the same name, and
    it is the same list whatever fuel lets the computation return; and the
    computation does return, with this result, when the interface reaches no
    type that lies on a reference cycle. *)
Theorem types_exactly_reachable `{Host} (service : Service) (int : Interface) :
  (forall fuel ts,
     types service fuel int = Some ts ->
     (forall type, In type ts <-> reachableType service int type)
     /\ NoDup (map type_name ts)
     /\ (forall fuel' ts', types service fuel' int = Some ts' -> ts' = ts))
  /\ ((forall type, reachableType service int type -> ~ onCycle service type) ->
      exists ts,
        types service (S (length (service_types service))) int = Some ts
        /\ (forall type, In type ts <-> reachableType service int type)
        /\ NoDup (map type_name ts)).
Proof.
  split.
  - intros fuel ts Ets. destruct (types_spec _ _ _ _ Ets) as (Hin & Hnd & _).
    split; [exact Hin|]. split; [exact Hnd|].
    intros fuel' ts' Ets'.
    apply (stable_agree _ _ _ _ _ (types_stable service int) Ets' Ets).
  - intros Hacyclic.
    destruct (types_acyclic_terminates service int Hacyclic) as (ts & Ets).
    destruct (types_spec _ _ _ _ Ets) as (Hin & Hnd & _).
    exists ts. auto.
Qed.

Lemma types_exactly_reachable_witness :
  exists ts,
    types (host := Sample.host) Fixtures.widgetService
      (S (length (service_types Fixtures.widgetService)))
      Fixtures.widgetInterface = Some ts
    /\ (forall type,
          In type ts
          <-> reachableType Fixtures.widgetService Fixtures.widgetInterface type)
    /\ NoDup (map type_name ts).
Proof.
  apply (proj2 (types_exactly_reachable (H := Sample.host) Fixtures.widgetService
                  Fixtures.widgetInterface)).
  apply (types_Some_acyclic (H := Sample.host) Fixtures.widgetService
           Fixtures.widgetInterface 2 [Fixtures.part; Fixtures.widget] eq_refl).
Defined.

Lemma append_cancel_r (a : string) :
  forall b c, a +++ c = b +++ c -> a = b.
Proof.
  assert (Hlen : forall x y : string, String.length (x +++ y)
                                      = String.length x + String.length y).
  { intros x y. induction x as [|ch x IH]; simpl; [reflexivity | rewrite IH; reflexivity]. }
  induction a as [|x a IH]; intros [|y b] c E; simpl in E.
  - reflexivity.
  - apply (f_equal String.length) in E. simpl in E. rewrite Hlen in E. lia.
  - apply (f_equal String.length) in E. simpl in E. rewrite Hlen in E. lia.
  - injection E as -> E. f_equal. apply (IH _ _ E).
Qed.

(** X18. Whenever the engine returns, it returns one file for each interface
    of the service, in the order of the interfaces: the k-th file has the
    documentation path of the k-th interface and, as contents, the lines of
    that interface's document joined by newlines.  It does return when no
    interface reaches a type that lies on a reference cycle.  The paths need
    not differ: two interfaces get the same path exactly when the snake
    case of their interface names is the same. *)
Theorem files_follow_interfaces `{Host}
    (banner : Service -> option Options -> list string)
    (service : Service) (options : option Options) :
  (forall fuel files,
     generateDocs banner fuel service options = Some files ->
     length files = length (service_interfaces service)
     /\ Forall2 (fun int file =>
                   path file = buildInterfaceDocsFilepath int service options
                   /\ exists lines,
                        buildInterfaceDocs banner service options fuel int
                        = Some lines
                        /\ contents file = from lines)
                (service_interfaces service) files)
  /\ ((forall int type,
         In int (service_interfaces service) ->
         reachableType service int type -> ~ onCycle service type) ->
      exists files,
        generateDocs banner (S (length (service_types service))) service options
        = Some files
        /\ length files = length (service_interfaces service))
  /\ (forall int int',
        buildInterfaceDocsFilepath int service options
        = buildInterfaceDocsFilepath int' service options
        <-> snake (buildInterfaceName int) = snake (buildInterfaceName int')).
Proof.
  assert (Hshape : forall fuel files,
     generateDocs banner fuel service options = Some files ->
     length files = length (service_interfaces service)
     /\ Forall2 (fun int file =>
                   path file = buildInterfaceDocsFilepath int service options
                   /\ exists lines,
                        buildInterfaceDocs banner service options fuel int
                        = Some lines
                        /\ contents file = from lines)
                (service_interfaces service) files).
  { intros fuel files E. unfold generateDocs, build in E.
    apply mapM_length in E. split.
    - symmetry. apply (Forall2_length E).
    - eapply Forall2_impl; [|exact E].
      intros int file Hfile. apply buildInterfaceDocsFile_Some in Hfile.
      destruct Hfile as (lines & Elines & ->). simpl. split; [reflexivity|].
      exists lines. auto. }
  split; [exact Hshape|]. split.
  - intros Hacyclic.
    assert (E : exists files,
               generateDocs banner (S (length (service_types service)))
                 service options = Some files).
    { unfold generateDocs, build. apply mapM_returns. intros int Hin.
      apply buildInterfaceDocsFile_returns.
      apply types_acyclic_terminates. intros type. apply Hacyclic, Hin. }
    destruct E as (files & E). exists files. split; [exact E|].
    apply (Hshape _ _ E).
  - intros int int'. unfold buildInterfaceDocsFilepath. split.
    + intros E. apply app_inv_head in E. injection E as E.
      apply (append_cancel_r _ _ _ E).
    + intros ->. reflexivity.
Qed.

Lemma files_follow_interfaces_witness :
  exists files,
    generateDocs (H := Sample.host) Sample.banner
      (S (length (service_types Fixtures.widgetService)))
      Fixtures.widgetService None = Some files
    /\ length files = 1.
Proof.
  apply (proj1 (proj2 (files_follow_interfaces (H := Sample.host) Sample.banner
                         Fixtures.widgetService None))).
  intros int type [<- | []].
  apply (types_Some_acyclic (H := Sample.host) Fixtures.widgetService
           Fixtures.widgetInterface 2 [Fixtures.part; Fixtures.widget] eq_refl).
Defined.
